(** * Indexing and retrieval pipeline of the chat widget (src/app/page.tsx)

    A shallow embedding of the server route (chunking, crawling, embedding
    with retry, per-URL indexing, retrieval, the POST handler) and of the
    client form submission, followed by the properties of the specification
    that were checked against it. *)

From Stdlib Require Import ZArith NArith Lia Bool String Ascii.
From stdpp Require Import base list gmap.

Local Open Scope Z_scope.
#[local] Set Warnings "-clear-no-such-hyp".

(** ** JavaScript strings

    A JavaScript string is a sequence of UTF-16 code units; [length],
    [slice], [trim] and [includes] all work on code units. *)

Abbreviation jsstring := (list N).

(** ASCII literals of the source, as code units. *)
Definition str (s : string) : jsstring :=
  map N_of_ascii (list_ascii_of_string s).

(** ECMAScript WhiteSpace and LineTerminator code points: what [trim]
    strips and what the regular-expression class [\s] matches. *)
Definition is_ws (c : N) : bool :=
  ((c =? 9) || (c =? 10) || (c =? 11) || (c =? 12) || (c =? 13) || (c =? 32)
   || (c =? 160) || (c =? 5760) || ((8192 <=? c) && (c <=? 8202))
   || (c =? 8232) || (c =? 8233) || (c =? 8239) || (c =? 8287)
   || (c =? 12288) || (c =? 65279))%N.

Fixpoint trimStart (s : jsstring) : jsstring :=
  match s with
  | [] => []
  | c :: s' => if is_ws c then trimStart s' else s
  end.

Definition trimEnd (s : jsstring) : jsstring := rev (trimStart (rev s)).

(** [String.prototype.trim] *)
Definition trim (s : jsstring) : jsstring := trimEnd (trimStart s).

Definition jslen (s : jsstring) : Z := Z.of_nat (length s).

(** Index clamping of [String.prototype.slice]: a negative index counts
    from the end, everything is clamped to [0, length]. *)
Definition slice_index (len k : Z) : Z :=
  if k <? 0 then Z.max (len + k) 0 else Z.min k len.

(** [String.prototype.slice(start, end)] *)
Definition slice (s : jsstring) (start stop : Z) : jsstring :=
  let from := slice_index (jslen s) start in
  let to := slice_index (jslen s) stop in
  take (Z.to_nat (to - from)) (drop (Z.to_nat from) s).

Fixpoint startsWith (s prefix : jsstring) : bool :=
  match prefix, s with
  | [], _ => true
  | _ :: _, [] => false
  | p :: prefix', c :: s' => (p =? c)%N && startsWith s' prefix'
  end.

(** [String.prototype.includes] *)
Fixpoint includes (s sub : jsstring) : bool :=
  startsWith s sub ||
  match s with
  | [] => false
  | _ :: s' => includes s' sub
  end.

(** [Array.prototype.join] on an array of strings *)
Fixpoint join (sep : jsstring) (parts : list jsstring) : jsstring :=
  match parts with
  | [] => []
  | [p] => p
  | p :: rest => p ++ sep ++ join sep rest
  end.

(** ** Text chunking

<<
function chunkText(text: string, size = 800, overlap = 200) {
  const chunks: string[] = [];
  for (let i = 0; i < text.length; i += size - overlap) {
    const piece = text.slice(i, i + size).trim();
    if (piece.length > 50) chunks.push(piece);
  }
  return chunks;
}
>>
    [size] and [overlap] are JavaScript numbers; the model covers the
    integers among them ([NaN], the infinities and fractions are outside
    it), and what is proved of [chunkText] is proved for integer [size] and
    [overlap].  The loop need not end, so it is run with fuel: [None] means
    the loop is still running when the fuel is used up. *)

Fixpoint chunk_loop (fuel : nat) (text : jsstring) (size overlap i : Z)
    (chunks : list jsstring) : option (list jsstring) :=
  match fuel with
  | O => None
  | S fuel' =>
      if i <? jslen text then
        let piece := trim (slice text i (i + size)) in
        let chunks' := if 50 <? jslen piece then chunks ++ [piece] else chunks in
        chunk_loop fuel' text size overlap (i + (size - overlap)) chunks'
      else Some chunks
  end.

(** One unit of fuel per character and one for the exit test: enough
    whenever the loop ends at all (see [chunkText_None_diverges]). *)
Definition chunkText (text : jsstring) (size overlap : Z) : option (list jsstring) :=
  chunk_loop (S (length text)) text size overlap 0 [].

(** The windows the specification speaks of: window [k] starts at
    [k * (size - overlap)] and is [size] code units wide; there is one
    window per start position below the length of the text. *)
Definition num_windows (len step : Z) : nat := Z.to_nat ((len + step - 1) / step).

Definition window (text : jsstring) (size overlap : Z) (k : nat) : jsstring :=
  slice text (Z.of_nat k * (size - overlap)) (Z.of_nat k * (size - overlap) + size).

Definition windows (text : jsstring) (size overlap : Z) : list jsstring :=
  map (window text size overlap) (seq 0 (num_windows (jslen text) (size - overlap))).

Definition long_enough (piece : jsstring) : bool := 50 <? jslen piece.

(** ** Thrown values, rows and the world

    A value thrown by a collaborator is an object with a [statusCode]
    property (the AI SDK's API call errors; the property may hold
    [undefined]), an object without one (an [Error], a store error), or a
    value that is not an object. *)

Inductive JsError :=
  | ApiError (statusCode : option Z) (message : option jsstring)
  | PlainError (message : jsstring)
  | Primitive (value : jsstring).

(** What an external call gives back. *)
Inductive Result (A : Type) :=
  | Got (a : A)
  | Failed (e : JsError).
Arguments Got {A} a.
Arguments Failed {A} e.

Abbreviation url := (list N).

(** An embedding is a vector of numbers that this code only passes on. *)
Abbreviation vector := (list Z).

(** A row of the [documents] table. *)
Record DocRow := mkDocRow {
  doc_url : url;
  chunk_index : nat;
  doc_text : jsstring;
  embedding : vector
}.

(** A row of the [user_leads] table; a field that is [undefined] in the
    inserted object is [None]. *)
Record LeadRow := mkLeadRow {
  name : jsstring;
  lead_email : jsstring;
  lead_phone : option jsstring;
  lead_company : option jsstring;
  inquiry_type : option jsstring;
  lead_message : option jsstring;
  contact_method : option jsstring;
  best_time : option jsstring;
  lead_agree : option bool;
  lead_newsletter : option bool
}.

Inductive SystemPrompt :=
  | PromptWithContext (retrievedText : jsstring)
  | PromptWithoutContext.

(** What the code does to its collaborators, in order. *)
Inductive Event :=
  | EvScrapeGoto (u : url)
  | EvEmbed (value : jsstring)
  | EvSleep (ms : Z)
  | EvCount (u : url)
  | EvInsertDoc (row : DocRow)
  | EvInsertLead (row : LeadRow)
  | EvMatchDocuments (query_embedding : vector) (match_count : Z)
  | EvCrawlGoto (u : url)
  | EvStartIndexing (baseUrl : url)
  | EvStreamText (system : SystemPrompt).

(** A row returned by [match_documents]; the code reads its [text]. *)
Record MatchRow := mkMatchRow { match_text : jsstring }.

(** The answer of [supabase.rpc('match_documents', ...)]: [data] (possibly
    [null]) and [error] (possibly [null]). *)
Record RpcAnswer := mkRpcAnswer {
  rpc_data : option (list MatchRow);
  rpc_error : option JsError
}.

(** The messages of a request, as the handler types them. *)
Inductive Role := User | Assistant | System.

(** [type ChatPart = { type: 'text'; text: string }]: every part is a text
    part, so the filter on the type keeps them all. *)
Record ChatPart := mkChatPart { part_text : jsstring }.

Record FormData := mkFormData {
  fullName : jsstring;
  email : jsstring;
  phone : option jsstring;
  company : option jsstring;
  inquiryType : option jsstring;
  message : option jsstring;
  contactMethod : option jsstring;
  bestTime : option jsstring;
  agree : option bool;
  newsletter : option bool
}.

Record ChatMetadata := mkChatMetadata { form : option FormData }.

Record ChatMessage := mkChatMessage {
  role : Role;
  parts : list ChatPart;
  metadata : option ChatMetadata
}.

Record Body := mkBody {
  messages : option (list ChatMessage);
  query : option jsstring
}.

Inductive ResponseBody :=
  | JsonError (error : jsstring)
  | JsonText (text : jsstring)
  | UIMessageStream.

Record Response := mkResponse {
  status : Z;
  payload : ResponseBody
}.

(** The collaborators: the browser (links and text of a page, or the error
    of [newPage]/[goto]/[evaluate]), the embedding model (its answer to the
    n-th call), the store, and the AI SDK's [convertToModelMessages] (the
    error it throws on a conversation, if any).  The store answers the
    nearest-neighbour search and reports the error, if any, of a lead
    insert.  The [documents] table itself is kept in the world, but the
    store can fail on it: a count query answers [null] and an insert is
    rejected when the store says so for the moment of the call, which is the
    number of events so far. *)
Record Env := mkEnv {
  page_links : url → Result (list url);
  page_text : url → Result jsstring;
  embed_api : nat → jsstring → Result vector;
  match_documents : list DocRow → vector → Z → RpcAnswer;
  lead_insert_error : list LeadRow → LeadRow → option JsError;
  count_fails : nat → url → bool;
  insert_rejected : nat → DocRow → bool;
  convert_error : list ChatMessage → option JsError
}.

Record World := mkWorld {
  documents : list DocRow;
  user_leads : list LeadRow;
  indexingStarted : bool;
  embed_calls : nat;
  trace : list Event
}.

(** [let indexingStarted = false;] and empty tables at process start. *)
Definition initial_world : World := mkWorld [] [] false 0 [].

(** ** Computations: state, exceptions, and a loop that does not end *)

Inductive Outcome (A : Type) :=
  | Ok (a : A)
  | Throw (e : JsError)
  | Hang.
Arguments Ok {A} a.
Arguments Throw {A} e.
Arguments Hang {A}.

Definition M (A : Type) : Type := World → Outcome A * World.

Definition ret {A} (a : A) : M A := λ w, (Ok a, w).

Definition bind {A B} (m : M A) (k : A → M B) : M B :=
  λ w, match m w with
       | (Ok a, w') => k a w'
       | (Throw e, w') => (Throw e, w')
       | (Hang, w') => (Hang, w')
       end.

Notation "'let!' x ':=' m 'in' k" := (bind m (λ x, k))
  (at level 10, x pattern, m at level 100, k at level 200).
Notation "m ';;' k" := (bind m (λ _, k))
  (at level 100, k at level 200, right associativity).

Definition throw {A} (e : JsError) : M A := λ w, (Throw e, w).
Definition hang {A} : M A := λ w, (Hang, w).

(** [try { m } catch (e) { handler e }] *)
Definition try_catch {A} (m : M A) (handler : JsError → M A) : M A :=
  λ w, match m w with
       | (Throw e, w') => handler e w'
       | r => r
       end.

Definition emit (ev : Event) : M unit :=
  λ w, (Ok tt, mkWorld (documents w) (user_leads w) (indexingStarted w)
                       (embed_calls w) (trace w ++ [ev])).

(** ** Crawl

<<
async function crawlSiteRecursive(browser, baseUrl, depth = 2, visited = new Set<string>()) {
  if (depth <= 0 || visited.has(baseUrl)) return [];
  visited.add(baseUrl);
  let page;
  try {
    page = await browser.newPage();
    await page.goto(baseUrl, ...);
    const links = await page.evaluate(...);
    await page.close();
    const newLinks: string[] = [baseUrl];
    for (const link of links) {
      newLinks.push(...await crawlSiteRecursive(browser, link, depth - 1, visited));
    }
    return newLinks;
  } catch (error) { ...; return []; }
}
>>
    [visited] is one set shared by all calls of a run: it is threaded
    through, together with the list of the pages the run has tried to open,
    in order.  A page whose [newPage], [goto] or [evaluate] throws is a
    [Failed] answer of the browser.  [page.close()] is taken to succeed, so
    that the recursive calls catch all they throw and nothing else reaches
    the [catch]; a run in which closing a page throws is outside the
    model. *)

Record CrawlState := mkCrawlState {
  visited : gset url;
  navigated : list url
}.

(** The [for (const link of links)] loop, [crawl] being the recursive call
    at [depth - 1]. *)
Fixpoint crawl_links (crawl : url → CrawlState → list url * CrawlState)
    (links : list url) (newLinks : list url) (st : CrawlState)
    : list url * CrawlState :=
  match links with
  | [] => (newLinks, st)
  | link :: rest =>
      let '(found, st') := crawl link st in
      crawl_links crawl rest (newLinks ++ found) st'
  end.

(** The recursion, on the number of levels left ([depth] when positive). *)
Fixpoint crawl (E : Env) (levels : nat) (baseUrl : url) (st : CrawlState)
    : list url * CrawlState :=
  match levels with
  | O => ([], st)
  | S levels' =>
      if decide (baseUrl ∈ visited st) then ([], st)
      else
        let st1 := mkCrawlState ({[baseUrl]} ∪ visited st) (navigated st ++ [baseUrl]) in
        match page_links E baseUrl with
        | Got links => crawl_links (crawl E levels') links [baseUrl] st1
        | Failed _ => ([], st1)
        end
  end.

Definition crawlSiteRecursive (E : Env) (baseUrl : url) (depth : Z) (st : CrawlState)
    : list url * CrawlState :=
  crawl E (Z.to_nat depth) baseUrl st.

Definition new_crawl : CrawlState := mkCrawlState ∅ [].

(** ** Scrape

    [scrapePage] navigates, extracts the text and returns
    [chunkText(text)], that is with the defaults 800 and 200.  A page whose
    [newPage], [goto] or [evaluate] throws is a [Failed] answer of the
    browser, recorded as one attempt to open the page; [page.close()] in the
    [finally] is taken to succeed. *)
Definition scrapePage (E : Env) (u : url) : M (list jsstring) :=
  emit (EvScrapeGoto u) ;;
  match page_text E u with
  | Failed e => throw e
  | Got text =>
      match chunkText text 800 200 with
      | Some chunks => ret chunks
      | None => hang
      end
  end.

(** ** Embedding with retry

<<
async function embedText(value: string, retries = 5, delay = 2000) {
  for (let i = 0; i < retries; i++) {
    try {
      const { embedding } = await embed({ model: embeddingModel, value });
      return embedding;
    } catch (err: unknown) {
      if (typeof err === "object" && err !== null && "statusCode" in err) {
        const e = err as { statusCode?: number; message?: string };
        if (e.statusCode === 429 || e.message?.includes("exhausted")) {
          console.warn(...);
          await new Promise(r => setTimeout(r, delay));
          delay *= 2;
        } else { throw err; }
      } else { throw err; }
    }
  }
  throw new Error("Max retries reached for embedding");
}
>>
    [retries] is modelled as an integer, which both callers pass (the
    default 5); the loop then runs at most [retries] times. *)

(** [typeof err === "object" && err !== null && "statusCode" in err] *)
Definition has_statusCode (err : JsError) : bool :=
  match err with
  | ApiError _ _ => true
  | PlainError _ | Primitive _ => false
  end.

(** [e.statusCode === 429 || e.message?.includes("exhausted")] *)
Definition quota_hit (err : JsError) : bool :=
  match err with
  | ApiError statusCode message =>
      match statusCode with Some c => c =? 429 | None => false end
      || match message with Some m => includes m (str "exhausted") | None => false end
  | PlainError _ | Primitive _ => false
  end.

(** The errors on which the loop sleeps and goes on. *)
Definition rate_limited (err : JsError) : bool := has_statusCode err && quota_hit err.

Definition max_retries_error : JsError :=
  PlainError (str "Max retries reached for embedding").

(** One call of the SDK's [embed]. *)
Definition call_embed (E : Env) (value : jsstring) : M (Result vector) :=
  λ w, (Ok (embed_api E (embed_calls w) value),
        mkWorld (documents w) (user_leads w) (indexingStarted w)
                (S (embed_calls w)) (trace w ++ [EvEmbed value])).

Definition sleep (ms : Z) : M unit := emit (EvSleep ms).

(** The loop, on the number of iterations left. *)
Fixpoint embed_loop (E : Env) (left : nat) (value : jsstring) (delay : Z) : M vector :=
  match left with
  | O => throw max_retries_error
  | S left' =>
      let! r := call_embed E value in
      match r with
      | Got embedding => ret embedding
      | Failed err =>
          if has_statusCode err then
            if quota_hit err then
              sleep delay ;;
              embed_loop E left' value (delay * 2)
            else throw err
          else throw err
      end
  end.

Definition embedText (E : Env) (value : jsstring) (retries delay : Z) : M vector :=
  embed_loop E (Z.to_nat retries) value delay.

(** ** Indexing one page

<<
async function ensurePageIndexed(browser: Browser, url: string) {
  const { count } = await supabase.from('documents')
    .select('id', { count: 'exact', head: true }).eq('url', url);
  if (count && count > 0) return;
  const chunks = await scrapePage(browser, url);
  for (const [i, chunk] of chunks.entries()) {
    const vector = await embedText(chunk);
    await supabase.from('documents').insert([{ url, chunk_index: i, text: chunk, embedding: vector }]);
  }
  console.log(`Indexed: ${url}`);
}
>> *)

Definition url_eqb (a b : url) : bool := bool_decide (a = b).

Definition count_rows (u : url) (rows : list DocRow) : nat :=
  length (List.filter (λ r, url_eqb (doc_url r) u) rows).

(** The count query: [count] is [null] when the query fails, and exact
    otherwise. *)
Definition count_documents (E : Env) (u : url) : M (option nat) :=
  λ w, (Ok (if count_fails E (length (trace w)) u then None
            else Some (count_rows u (documents w))),
        mkWorld (documents w) (user_leads w) (indexingStarted w)
                (embed_calls w) (trace w ++ [EvCount u])).

(** [await supabase.from('documents').insert([row])]: the row is stored
    unless the store rejects the insert; the code does not read the
    result. *)
Definition insert_document (E : Env) (row : DocRow) : M unit :=
  λ w, (Ok tt,
        mkWorld (if insert_rejected E (length (trace w)) row then documents w
                 else documents w ++ [row])
                (user_leads w) (indexingStarted w)
                (embed_calls w) (trace w ++ [EvInsertDoc row])).

(** The [for (const [i, chunk] of chunks.entries())] loop, from index [i]. *)
Fixpoint index_chunks (E : Env) (u : url) (i : nat) (chunks : list jsstring) : M unit :=
  match chunks with
  | [] => ret tt
  | chunk :: rest =>
      let! vector := embedText E chunk 5 2000 in
      insert_document E (mkDocRow u i chunk vector) ;;
      index_chunks E u (S i) rest
  end.

(** [count && count > 0]: false for [null] and for 0. *)
Definition positive (count : option nat) : bool :=
  match count with
  | Some c => (0 <? c)%nat
  | None => false
  end.

Definition ensurePageIndexed (E : Env) (u : url) : M unit :=
  let! count := count_documents E u in
  if positive count then ret tt
  else
    let! chunks := scrapePage E u in
    index_chunks E u 0 chunks.

(** ** Indexing the site

<<
async function ensurePagesIndexed(baseUrl: string) {
  const browser = await puppeteer.launch(...);
  try {
    const urls = await crawlSiteRecursive(browser, baseUrl);
    for (const url of urls) {
      try { await ensurePageIndexed(browser, url); } catch (err) { console.error(...); }
    }
  } finally { await browser.close(); }
}
>>
    [index_pages] is the loop over the crawled URLs.  [ensurePagesIndexed]
    is the run with a browser that launches and closes: [puppeteer.launch]
    and [browser.close] are taken to succeed. *)

Fixpoint emit_all (evs : list Event) : M unit :=
  match evs with
  | [] => ret tt
  | ev :: rest => emit ev ;; emit_all rest
  end.

Fixpoint index_pages (E : Env) (urls : list url) : M unit :=
  match urls with
  | [] => ret tt
  | u :: rest =>
      try_catch (ensurePageIndexed E u) (λ _, ret tt) ;;
      index_pages E rest
  end.

Definition ensurePagesIndexed (E : Env) (baseUrl : url) : M unit :=
  let '(urls, st) := crawlSiteRecursive E baseUrl 2 new_crawl in
  emit_all (map EvCrawlGoto (navigated st)) ;;
  index_pages E urls.

(** ** Search

<<
async function searchDocuments(query: string, topK = 5) {
  const queryEmb = await embedText(query);
  const { data, error } = await supabase.rpc('match_documents',
    { query_embedding: queryEmb, match_count: topK });
  if (error) throw error;
  return (data as DocumentRow[] ?? []).map(d => d.text).join("\n\n");
}
>> *)

Definition rpc_match_documents (E : Env) (queryEmb : vector) (topK : Z) : M RpcAnswer :=
  λ w, (Ok (match_documents E (documents w) queryEmb topK),
        mkWorld (documents w) (user_leads w) (indexingStarted w)
                (embed_calls w) (trace w ++ [EvMatchDocuments queryEmb topK])).

(** The separator: two line feeds. *)
Definition blank_line : jsstring := [10%N; 10%N].

Definition searchDocuments (E : Env) (query : jsstring) (topK : Z) : M jsstring :=
  let! queryEmb := embedText E query 5 2000 in
  let! answer := rpc_match_documents E queryEmb topK in
  match rpc_error answer with
  | Some error => throw error
  | None => ret (join blank_line (map match_text (default [] (rpc_data answer))))
  end.

(** ** The request handler

<<
let indexingStarted = false;

export async function POST(req: NextRequest) {
  const body = (await req.json()) as { messages: ChatMessage[]; query?: string };
  const messages = body?.messages ?? [];
  const lastUserMessage = [...messages].reverse().find(m => m.role === 'user');
  const formData = lastUserMessage?.metadata?.form;
  if (formData) {
    const { error } = await supabase.from('user_leads').insert([{ name: formData.fullName, ... }]);
    if (error) { return new Response(JSON.stringify({ error: "Failed to save lead" }), { status: 500 }); }
    return new Response(JSON.stringify({ text: `✅ Thanks ${formData.fullName}! ...` }), { status: 200 });
  }
  const lastUserText = body?.query ?? [...messages].reverse().find(m => m.role === 'user')?.parts
      ?.filter(p => p.type === 'text')?.map(p => p.text)?.join(' ') ?? '';
  if (!indexingStarted) {
    indexingStarted = true;
    ensurePagesIndexed('https://www.techmurugan.in/').catch(console.error);
  }
  let retrievedText = '';
  if (lastUserText) {
    try { retrievedText = await searchDocuments(lastUserText, 4); }
    catch (e) { console.error('Vector search error:', e); }
  }
  const systemPrompt = retrievedText ? `...${retrievedText}...` : `...`;
  const result = streamText({ ..., messages: [{ role: 'system', content: systemPrompt },
                                               ...convertToModelMessages(messages)], tools: ... });
  return result.toUIMessageStreamResponse();
}
>>
    [convertToModelMessages(messages)] is evaluated before [streamText] is
    called: when it throws, the handler throws and [streamText] is not
    called. *)

Definition is_user (m : ChatMessage) : bool :=
  match role m with User => true | _ => false end.

(** [[...messages].reverse().find(m => m.role === 'user')] *)
Definition lastUserMessage (body : Body) : option ChatMessage :=
  List.find is_user (rev (default [] (messages body))).

(** [lastUserMessage?.metadata?.form] *)
Definition form_payload (body : Body) : option FormData :=
  match lastUserMessage body with
  | Some m => match metadata m with Some md => form md | None => None end
  | None => None
  end.

(** The object given to [insert] on [user_leads]. *)
Definition lead_of_form (formData : FormData) : LeadRow :=
  mkLeadRow (fullName formData) (email formData) (phone formData) (company formData)
            (inquiryType formData) (message formData) (contactMethod formData)
            (bestTime formData) (agree formData) (newsletter formData).

(** [supabase.from('user_leads').insert([row])]: returns the error, if any;
    the row is stored when there is none. *)
Definition insert_lead (E : Env) (row : LeadRow) : M (option JsError) :=
  λ w, match lead_insert_error E (user_leads w) row with
       | Some error =>
           (Ok (Some error),
            mkWorld (documents w) (user_leads w) (indexingStarted w)
                    (embed_calls w) (trace w ++ [EvInsertLead row]))
       | None =>
           (Ok None,
            mkWorld (documents w) (user_leads w ++ [row]) (indexingStarted w)
                    (embed_calls w) (trace w ++ [EvInsertLead row]))
       end.

(** The check mark U+2705 is one code unit. *)
Definition thanks (fullName : jsstring) : jsstring :=
  [9989%N] ++ str " Thanks " ++ fullName ++ str "! Your inquiry has been received.".

Definition lastUserText (body : Body) : jsstring :=
  match query body with
  | Some q => q
  | None =>
      match lastUserMessage body with
      | Some m => join (str " ") (map part_text (parts m))
      | None => []
      end
  end.

Definition site : url := str "https://www.techmurugan.in/".

(** A string is truthy when it is not empty. *)
Definition truthy (s : jsstring) : bool :=
  match s with [] => false | _ :: _ => true end.

(** [if (!indexingStarted) { indexingStarted = true; ensurePagesIndexed(...) }]:
    the run is launched and not awaited; launching it is an event. *)
Definition index_once : M unit :=
  λ w, if indexingStarted w then (Ok tt, w)
       else (Ok tt,
             mkWorld (documents w) (user_leads w) true (embed_calls w)
                     (trace w ++ [EvStartIndexing site])).

Definition POST (E : Env) (body : Body) : M Response :=
  match form_payload body with
  | Some formData =>
      let! error := insert_lead E (lead_of_form formData) in
      match error with
      | Some _ => ret (mkResponse 500 (JsonError (str "Failed to save lead")))
      | None => ret (mkResponse 200 (JsonText (thanks (fullName formData))))
      end
  | None =>
      let text := lastUserText body in
      index_once ;;
      let! retrievedText :=
        (if truthy text
         then try_catch (searchDocuments E text 4) (λ _, ret [])
         else ret []) in
      let systemPrompt :=
        if truthy retrievedText then PromptWithContext retrievedText
        else PromptWithoutContext in
      match convert_error E (default [] (messages body)) with
      | Some error => throw error
      | None =>
          emit (EvStreamText systemPrompt) ;;
          ret (mkResponse 200 UIMessageStream)
      end
  end.

(** The requests of one process, in the order in which their handlers reach
    the guard.  Handlers interleave only at an [await]; the test and the
    assignment of the flag are in one block without any. *)
Definition serve (E : Env) (bodies : list Body) (w : World) : World :=
  fold_left (λ w body, snd (POST E body w)) bodies w.

Definition is_start (ev : Event) : bool :=
  match ev with EvStartIndexing _ => true | _ => false end.

(** How often the crawl-and-index run was launched. *)
Definition starts (evs : list Event) : nat := length (List.filter is_start evs).

(** The [collectForm] tool of the same handler:
<<
collectForm: tool({
  inputSchema: z.object({
    fullName: z.string(), email: z.string().email(), phone: z.string().optional(), ...,
    agree: z.boolean().default(false), newsletter: z.boolean().default(false) }),
  execute: async (data) => {
    const { error } = await supabase.from('user_leads').insert([{ name: data.fullName, ... }]);
    if (error) throw error;
    return { text: `✅ Thanks ${data.fullName}! Your inquiry has been received.` };
  } })
>>
    The input passes the zod schema before [execute] runs; [z_email] stands
    for zod's email check, which is not part of this repository; a required
    field that is absent fails [z.string()]. *)
Record ToolInput := mkToolInput {
  in_fullName : option jsstring;
  in_email : option jsstring;
  in_phone : option jsstring;
  in_company : option jsstring;
  in_inquiryType : option jsstring;
  in_message : option jsstring;
  in_contactMethod : option jsstring;
  in_bestTime : option jsstring;
  in_agree : option bool;
  in_newsletter : option bool
}.

Definition invalid_input : JsError := PlainError (str "Invalid input").

Definition collectForm (E : Env) (z_email : jsstring → bool) (input : ToolInput)
    : M jsstring :=
  match in_fullName input, in_email input with
  | Some fullName, Some email =>
      if z_email email then
        let! error := insert_lead E
          (mkLeadRow fullName email (in_phone input) (in_company input)
             (in_inquiryType input) (in_message input) (in_contactMethod input)
             (in_bestTime input)
             (Some (default false (in_agree input)))
             (Some (default false (in_newsletter input)))) in
        match error with
        | Some error => throw error
        | None => ret (thanks fullName)
        end
      else throw invalid_input
  | _, _ => throw invalid_input
  end.

(** ** The client form (the chat component)

<<
const emailRegex = /^[^\s@]+@[^\s@]+\.[^\s@]+$/;
if (value && !emailRegex.test(value)) { setEmailError('Please enter a valid email address'); }
else { setEmailError(''); }
...
const submitForm = async () => {
  if (!formData.fullName.trim() || !formData.email.trim()) return;
  ...
  await sendMessage({ text: `Customer Follow-Up Form submitted`, metadata: { form: formData } });
>> *)

Inductive regex :=
  | RNone
  | REps
  | RClass (p : N → bool)
  | RCat (r1 r2 : regex)
  | RAlt (r1 r2 : regex)
  | RStar (r : regex).

Definition RPlus (r : regex) : regex := RCat r (RStar r).

Fixpoint nullable (r : regex) : bool :=
  match r with
  | RNone => false
  | REps => true
  | RClass _ => false
  | RCat r1 r2 => nullable r1 && nullable r2
  | RAlt r1 r2 => nullable r1 || nullable r2
  | RStar _ => true
  end.

Fixpoint deriv (c : N) (r : regex) : regex :=
  match r with
  | RNone | REps => RNone
  | RClass p => if p c then REps else RNone
  | RCat r1 r2 =>
      if nullable r1 then RAlt (RCat (deriv c r1) r2) (deriv c r2)
      else RCat (deriv c r1) r2
  | RAlt r1 r2 => RAlt (deriv c r1) (deriv c r2)
  | RStar r1 => RCat (deriv c r1) (RStar r1)
  end.

(** [/^r$/.test(s)] *)
Definition regex_test (r : regex) (s : jsstring) : bool :=
  nullable (fold_left (λ r c, deriv c r) s r).

(** [[^\s@]] *)
Definition not_space_at (c : N) : bool := negb (is_ws c) && negb (c =? 64)%N.

Definition emailRegex : regex :=
  RCat (RPlus (RClass not_space_at))
    (RCat (RClass (N.eqb 64))
       (RCat (RPlus (RClass not_space_at))
          (RCat (RClass (N.eqb 46)) (RPlus (RClass not_space_at))))).

(** The error shown under the email field after typing [value]. *)
Definition emailError (value : jsstring) : jsstring :=
  if truthy value && negb (regex_test emailRegex value)
  then str "Please enter a valid email address"
  else [].

(** The form state of the component: every field is a string or a flag. *)
Record ClientForm := mkClientForm {
  c_fullName : jsstring;
  c_email : jsstring;
  c_phone : jsstring;
  c_company : jsstring;
  c_inquiryType : jsstring;
  c_message : jsstring;
  c_contactMethod : jsstring;
  c_bestTime : jsstring;
  c_agree : bool;
  c_newsletter : bool
}.

(** The message [submitForm] sends, if it sends one. *)
Definition submitForm (formData : ClientForm) : option ChatMessage :=
  if negb (truthy (trim (c_fullName formData))) || negb (truthy (trim (c_email formData)))
  then None
  else Some (mkChatMessage User
               [mkChatPart (str "Customer Follow-Up Form submitted")]
               (Some (mkChatMetadata (Some
                  (mkFormData (c_fullName formData) (c_email formData)
                     (Some (c_phone formData)) (Some (c_company formData))
                     (Some (c_inquiryType formData)) (Some (c_message formData))
                     (Some (c_contactMethod formData)) (Some (c_bestTime formData))
                     (Some (c_agree formData)) (Some (c_newsletter formData))))))).

(** ** Vocabulary of the properties, and sample collaborators *)

(** A short page text: one chunk with the defaults. *)
Definition sample_text : jsstring :=
  str "Our team builds web sites, mobile apps and cloud back ends for small shops and large firms alike.".

(** The text of the counterexample to C6: 60 times "a", 60 times "b", 60
    times "a". *)
Definition gap_text : jsstring :=
  replicate 60 97%N ++ replicate 60 98%N ++ replicate 60 97%N.

(** What a crawl from state [st0] has done when it is in state [st] with
    the list [urls] in hand: [nav] are the pages navigated to since. *)
Definition crawled (st0 : CrawlState) (urls : list url) (st : CrawlState) : Prop :=
  ∃ nav,
    navigated st = navigated st0 ++ nav ∧
    visited st = visited st0 ∪ list_to_set nav ∧
    NoDup nav ∧
    (∀ u, u ∈ nav → u ∉ visited st0) ∧
    NoDup urls ∧
    (∀ u, u ∈ urls → u ∈ nav).

(** A site with a cycle: the home page links to the about page and to
    itself, the about page links back to the home page, a third page cannot
    be opened. *)
Definition cyclic_site : Env :=
  mkEnv
    (λ u, if url_eqb u (str "/") then Got [str "/"; str "/about"; str "/down"]
          else if url_eqb u (str "/about") then Got [str "/"; str "/about"]
          else Failed (PlainError (str "Navigation timeout")))
    (λ u, Got sample_text)
    (λ n value, Got [1; 2; 3])
    (λ rows q k, mkRpcAnswer (Some []) None)
    (λ rows row, None)
    (λ n u, false)
    (λ n row, false)
    (λ conversation, None).

(** The calls and sleeps of [k] rate-limited attempts in a row. *)
Definition backoff_trace (value : jsstring) (delay : Z) (k : nat) : list Event :=
  flat_map (λ i : nat, [EvEmbed value; EvSleep (delay * 2 ^ Z.of_nat i)]) (seq 0 k).

Definition after_backoff (w : World) (value : jsstring) (delay : Z) (k : nat) : World :=
  mkWorld (documents w) (user_leads w) (indexingStarted w)
          (embed_calls w + k) (trace w ++ backoff_trace value delay k).

(** The world after one more call of [embed]. *)
Definition after_call (w : World) (value : jsstring) : World :=
  mkWorld (documents w) (user_leads w) (indexingStarted w)
          (S (embed_calls w)) (trace w ++ [EvEmbed value]).

(** The model answers "too many requests" twice, then with a vector. *)
Definition flaky_model : Env :=
  mkEnv
    (λ u, Got [])
    (λ u, Got sample_text)
    (λ n value, if (n <? 2)%nat
                then Failed (ApiError (Some 429) (Some (str "Too many requests")))
                else Got [1; 2; 3])
    (λ rows q k, mkRpcAnswer (Some []) None)
    (λ rows row, None)
    (λ n u, false)
    (λ n row, false)
    (λ conversation, None).

Definition embed_event (ev : Event) : bool :=
  match ev with EvEmbed _ | EvSleep _ => true | _ => false end.

(** The rows of the insert requests among some events, in order. *)
Definition inserted (evs : list Event) : list DocRow :=
  omap (λ ev, match ev with EvInsertDoc row => Some row | _ => None end) evs.

Definition after_sleep (w : World) (ms : Z) : World :=
  mkWorld (documents w) (user_leads w) (indexingStarted w)
          (embed_calls w) (trace w ++ [EvSleep ms]).

Definition after_event (w : World) (ev : Event) : World :=
  mkWorld (documents w) (user_leads w) (indexingStarted w)
          (embed_calls w) (trace w ++ [ev]).

(** The chunks of a text with the default size and overlap. *)
Definition default_chunks (text : jsstring) : list jsstring :=
  List.filter long_enough (map trim (windows text 800 200)).

(** The count query sent in world [w] answers, and with a count above
    zero. *)
Definition counted_as_indexed (E : Env) (w : World) (u : url) : bool :=
  negb (count_fails E (length (trace w)) u) && (0 <? count_rows u (documents w))%nat.

(** What the loop over the chunks, started at index [i], has done: [rows]
    are the rows of its insert requests, in order; the rows the store kept
    are among them, in the same order. *)
Record stored (E : Env) (u : url) (i : nat) (chunks : list jsstring)
    (w : World) (r : Outcome unit * World) (rows : list DocRow) : Prop := mkStored {
  stored_trace : ∃ evs, trace r.2 = trace w ++ evs ∧ inserted evs = rows;
  stored_documents :
    ∃ kept, documents r.2 = documents w ++ kept ∧ sublist kept rows ∧
            ((∀ n row, insert_rejected E n row = false) → kept = rows);
  stored_index : map chunk_index rows = seq i (length rows);
  stored_text : map doc_text rows = take (length rows) chunks;
  stored_url : Forall (λ row, doc_url row = u) rows;
  stored_all : r.1 = Ok tt → length rows = length chunks;
  stored_ends : r.1 ≠ Hang
}.

(** A store whose count queries fail, one that rejects every insert into
    [documents], and a model whose quota error has no [statusCode]. *)
Definition blind_store : Env :=
  mkEnv
    (λ u, Got [])
    (λ u, Got sample_text)
    (λ n value, Got [1; 2; 3])
    (λ rows q k, mkRpcAnswer (Some []) None)
    (λ rows row, None)
    (λ n u, true)
    (λ n row, false)
    (λ conversation, None).

Definition closed_store : Env :=
  mkEnv
    (λ u, Got [])
    (λ u, Got sample_text)
    (λ n value, Got [1; 2; 3])
    (λ rows q k, mkRpcAnswer (Some []) None)
    (λ rows row, None)
    (λ n u, false)
    (λ n row, true)
    (λ conversation, None).

Definition quota_error : JsError :=
  PlainError (str "Failed after 3 attempts. Last error: Resource has been exhausted (e.g. check quota).").

Definition quota_without_status : Env :=
  mkEnv
    (λ u, Got [])
    (λ u, Got sample_text)
    (λ n value, Failed quota_error)
    (λ rows q k, mkRpcAnswer (Some []) None)
    (λ rows row, None)
    (λ n u, false)
    (λ n row, false)
    (λ conversation, None).

(** A conversation that [convertToModelMessages] refuses. *)
Definition unconvertible : Env :=
  mkEnv
    (λ u, Got [])
    (λ u, Got sample_text)
    (λ n value, Got [1; 2; 3])
    (λ rows q k, mkRpcAnswer (Some []) None)
    (λ rows row, None)
    (λ n u, false)
    (λ n row, false)
    (λ conversation, Some (PlainError (str "Cannot read properties of undefined"))).

(** A store that finds two passages, in this order. *)
Definition two_matches : Env :=
  mkEnv
    (λ u, Got [])
    (λ u, Got sample_text)
    (λ n value, Got [1; 2; 3])
    (λ rows q k, mkRpcAnswer (Some [mkMatchRow (str "first"); mkMatchRow (str "second")]) None)
    (λ rows row, None)
    (λ n u, false)
    (λ n row, false)
    (λ conversation, None).

(** The failures that the specification calls rate-limit or quota
    failures, as [embedText] recognises them: an object with a [statusCode]
    property whose status code is 429 or whose message has "exhausted"
    somewhere in it. *)
Definition retried (err : JsError) : Prop :=
  ∃ statusCode message,
    err = ApiError statusCode message ∧
    (statusCode = Some 429 ∨
     ∃ before rest, message = Some (before ++ str "exhausted" ++ rest)).

(** A computation that leaves the flag alone and launches no indexing
    run. *)
Definition calm {A} (m : M A) : Prop :=
  ∀ w, indexingStarted (m w).2 = indexingStarted w ∧
       ∃ evs, trace (m w).2 = trace w ++ evs ∧ List.filter is_start evs = [].

(** What the handler does after the guard, for the text [text]. *)
Definition retrieve_and_answer (E : Env) (conversation : list ChatMessage)
    (text : jsstring) : M Response :=
  let! retrievedText :=
    (if truthy text
     then try_catch (searchDocuments E text 4) (λ _, ret [])
     else ret []) in
  let systemPrompt :=
    if truthy retrievedText then PromptWithContext retrievedText
    else PromptWithoutContext in
  match convert_error E conversation with
  | Some error => throw error
  | None =>
      emit (EvStreamText systemPrompt) ;;
      ret (mkResponse 200 UIMessageStream)
  end.

(** The world after the lead insert of a form submission. *)
Definition after_lead (E : Env) (w : World) (row : LeadRow) : World :=
  mkWorld (documents w)
          (match lead_insert_error E (user_leads w) row with
           | Some _ => user_leads w
           | None => user_leads w ++ [row]
           end)
          (indexingStarted w) (embed_calls w) (trace w ++ [EvInsertLead row]).

Definition ask (text : jsstring) : Body :=
  mkBody (Some [mkChatMessage User [mkChatPart text] None]) None.

(** The form of the end-to-end scenario: a name and a malformed email. *)
Definition jane_form : ClientForm :=
  mkClientForm (str "Jane Doe") (str "not-an-email") [] [] [] [] []
               (str "Any time") false false.

Definition jane_data : FormData :=
  mkFormData (str "Jane Doe") (str "not-an-email") (Some []) (Some []) (Some [])
             (Some []) (Some []) (Some (str "Any time")) (Some false) (Some false).

Definition jane_message : ChatMessage :=
  mkChatMessage User [mkChatPart (str "Customer Follow-Up Form submitted")]
                (Some (mkChatMetadata (Some jane_data))).

Definition jane_body : Body := mkBody (Some [jane_message]) None.

(** ** More of the handler: the [retrieveDocument] tool

<<
retrieveDocument: tool({
  inputSchema: z.object({ query: z.string() }),
  execute: async ({ query }) => {
    const docs = await searchDocuments(query || lastUserText, 4);
    return { text: docs || 'No relevant documents found.' };
  },
})
>>
    [lastText] is the [lastUserText] of the request that runs the tool. *)

Definition no_documents : jsstring := str "No relevant documents found.".

Definition retrieveDocument (E : Env) (lastText query : jsstring) : M jsstring :=
  let! docs := searchDocuments E (if truthy query then query else lastText) 4 in
  ret (if truthy docs then docs else no_documents).

(** ** More of the client: sending a message, editing the form

<<
const sendChatMessage = async () => {
  if (!input.trim()) return;
  await sendMessage({ text: input, metadata: { createdAt: new Date().toISOString() } });
  setInput('');
};
>> *)

(** The message [sendChatMessage] sends, if it sends one; its metadata
    carries a date and no form. *)
Definition sendChatMessage (input : jsstring) : option ChatMessage :=
  if negb (truthy (trim input)) then None
  else Some (mkChatMessage User [mkChatPart input] (Some (mkChatMetadata None))).

(** The body [useChat] posts: the conversation so far and the new message
    at its end. *)
Definition request_of (history : list ChatMessage) (m : ChatMessage) : Body :=
  mkBody (Some (history ++ [m])) None.

(**
<<
const handleFormChange = (e) => {
  const { name, value } = e.target;
  if (e.target instanceof HTMLInputElement && e.target.type === "checkbox") {
    setFormData(prev => ({ ...prev, [name]: target.checked }));
    return;
  }
  if (name === "fullName") {
    const lettersOnly = value.replace(/[^a-zA-Z\s]/g, "");
    setFormData(prev => ({ ...prev, [name]: lettersOnly }));
    return;
  }
  if (name === "phone") {
    const numbersOnly = value.replace(/[^0-9]/g, "");
    const formatted = numbersOnly.replace(/(\d{3})(\d{3})(\d{4})/, '($1) $2-$3');
    setFormData(prev => ({ ...prev, [name]: formatted }));
    return;
  }
  if (name === "email") {
    setFormData(prev => ({ ...prev, [name]: value }));
    const emailRegex = /^[^\s@]+@[^\s@]+\.[^\s@]+$/;
    if (value && !emailRegex.test(value)) { setEmailError("Please enter a valid email address"); }
    else { setEmailError(""); }
    return;
  }
  setFormData(prev => ({ ...prev, [name]: value }));
};
>> *)

(** [[a-zA-Z]] and [[0-9]] (which is what [\d] matches). *)
Definition is_letter (c : N) : bool :=
  (((65 <=? c) && (c <=? 90)) || ((97 <=? c) && (c <=? 122)))%N.

Definition is_digit (c : N) : bool := ((48 <=? c) && (c <=? 57))%N.

(** [value.replace(/[^a-zA-Z\s]/g, "")] *)
Definition lettersOnly (value : jsstring) : jsstring :=
  List.filter (λ c, is_letter c || is_ws c) value.

(** [value.replace(/[^0-9]/g, "")] *)
Definition numbersOnly (value : jsstring) : jsstring :=
  List.filter is_digit value.

(** Whether [/(\d{3})(\d{3})(\d{4})/] matches at the start of [s]. *)
Definition ten_digits (s : jsstring) : bool :=
  (10 <=? length s)%nat && forallb is_digit (take 10 s).

(** [s.replace(/(\d{3})(\d{3})(\d{4})/, '($1) $2-$3')]: the leftmost run of
    ten digits is rewritten, the rest is kept. *)
Fixpoint format_phone (s : jsstring) : jsstring :=
  if ten_digits s then
    str "(" ++ take 3 s ++ str ") " ++ take 3 (drop 3 s) ++ str "-"
      ++ take 4 (drop 6 s) ++ drop 10 s
  else
    match s with
    | [] => []
    | c :: s' => c :: format_phone s'
    end.

(** The inputs of the form by name: two check boxes, eight inputs with a
    value. *)
Inductive CheckField := Agree | Newsletter.

Inductive ValueField :=
  | FullName | Email | Phone | Company | InquiryType | Message | ContactMethod | BestTime.

Inductive ChangeEvent :=
  | CheckboxChange (name : CheckField) (checked : bool)
  | ValueChange (name : ValueField) (value : jsstring).

(** The two pieces of state the handler writes. *)
Record FormState := mkFormState {
  formData : ClientForm;
  shownEmailError : jsstring
}.

(** [{ ...prev, [name]: value }] *)
Definition set_value (name : ValueField) (value : jsstring) (f : ClientForm) : ClientForm :=
  match name with
  | FullName => mkClientForm value (c_email f) (c_phone f) (c_company f) (c_inquiryType f)
                  (c_message f) (c_contactMethod f) (c_bestTime f) (c_agree f) (c_newsletter f)
  | Email => mkClientForm (c_fullName f) value (c_phone f) (c_company f) (c_inquiryType f)
                  (c_message f) (c_contactMethod f) (c_bestTime f) (c_agree f) (c_newsletter f)
  | Phone => mkClientForm (c_fullName f) (c_email f) value (c_company f) (c_inquiryType f)
                  (c_message f) (c_contactMethod f) (c_bestTime f) (c_agree f) (c_newsletter f)
  | Company => mkClientForm (c_fullName f) (c_email f) (c_phone f) value (c_inquiryType f)
                  (c_message f) (c_contactMethod f) (c_bestTime f) (c_agree f) (c_newsletter f)
  | InquiryType => mkClientForm (c_fullName f) (c_email f) (c_phone f) (c_company f) value
                  (c_message f) (c_contactMethod f) (c_bestTime f) (c_agree f) (c_newsletter f)
  | Message => mkClientForm (c_fullName f) (c_email f) (c_phone f) (c_company f)
                  (c_inquiryType f) value (c_contactMethod f) (c_bestTime f) (c_agree f)
                  (c_newsletter f)
  | ContactMethod => mkClientForm (c_fullName f) (c_email f) (c_phone f) (c_company f)
                  (c_inquiryType f) (c_message f) value (c_bestTime f) (c_agree f)
                  (c_newsletter f)
  | BestTime => mkClientForm (c_fullName f) (c_email f) (c_phone f) (c_company f)
                  (c_inquiryType f) (c_message f) (c_contactMethod f) value (c_agree f)
                  (c_newsletter f)
  end.

Definition set_checked (name : CheckField) (checked : bool) (f : ClientForm) : ClientForm :=
  match name with
  | Agree => mkClientForm (c_fullName f) (c_email f) (c_phone f) (c_company f)
               (c_inquiryType f) (c_message f) (c_contactMethod f) (c_bestTime f) checked
               (c_newsletter f)
  | Newsletter => mkClientForm (c_fullName f) (c_email f) (c_phone f) (c_company f)
               (c_inquiryType f) (c_message f) (c_contactMethod f) (c_bestTime f) (c_agree f)
               checked
  end.

Definition handleFormChange (e : ChangeEvent) (st : FormState) : FormState :=
  match e with
  | CheckboxChange name checked =>
      mkFormState (set_checked name checked (formData st)) (shownEmailError st)
  | ValueChange FullName value =>
      mkFormState (set_value FullName (lettersOnly value) (formData st)) (shownEmailError st)
  | ValueChange Phone value =>
      mkFormState (set_value Phone (format_phone (numbersOnly value)) (formData st))
                  (shownEmailError st)
  | ValueChange Email value =>
      mkFormState (set_value Email value (formData st)) (emailError value)
  | ValueChange name value =>
      mkFormState (set_value name value (formData st)) (shownEmailError st)
  end.

(** [useState({ fullName: '', ..., bestTime: 'Any time', agree: false,
    newsletter: false })] and [useState('')] for the error. *)
Definition initial_form : FormState :=
  mkFormState (mkClientForm [] [] [] [] [] [] [] (str "Any time") false false) [].

(** The form after the user's edits, in order. *)
Definition edit (events : list ChangeEvent) (st : FormState) : FormState :=
  fold_left (λ st e, handleFormChange e st) events st.

(** ** Vocabulary of the further properties *)

(** [reach E n u x]: [x] is [u] or is reached from [u] by following at most
    [n] links, each from a page that opens. *)
Inductive reach (E : Env) : nat → url → url → Prop :=
  | reach_here n u : reach E n u u
  | reach_link n u links v x :
      page_links E u = Got links → v ∈ links → reach E n v x → reach E (S n) u x.

(** The milliseconds slept, the calls of the model and the pages counted
    among some events. *)
Definition slept (evs : list Event) : Z :=
  fold_right (λ ev acc, match ev with EvSleep ms => ms + acc | _ => acc end) 0 evs.

Definition embed_requests (evs : list Event) : nat :=
  length (List.filter (λ ev, match ev with EvEmbed _ => true | _ => false end) evs).

Definition counted (evs : list Event) : list url :=
  omap (λ ev, match ev with EvCount u => Some u | _ => None end) evs.

Definition lead_requests (evs : list Event) : list LeadRow :=
  omap (λ ev, match ev with EvInsertLead row => Some row | _ => None end) evs.

Definition is_stream (ev : Event) : bool :=
  match ev with EvStreamText _ => true | _ => false end.

(** The events of the loop over the chunks of a page. *)
Definition index_event (ev : Event) : bool :=
  match ev with EvEmbed _ | EvSleep _ | EvInsertDoc _ => true | _ => false end.

(** A site whose pages say next to nothing, and one of which is down. *)
Definition tiny_site : Env :=
  mkEnv
    (λ u, Got [])
    (λ u, if url_eqb u (str "/down") then Failed (PlainError (str "Navigation timeout"))
          else Got (str "Coming soon"))
    (λ n value, Got [1; 2; 3])
    (λ rows q k, mkRpcAnswer None None)
    (λ rows row, Some (PlainError (str "permission denied")))
    (λ n u, false)
    (λ n row, false)
    (λ conversation, None).

(** The row that the fields of the client form make. *)
Definition client_row (f : ClientForm) : LeadRow :=
  mkLeadRow (c_fullName f) (c_email f) (Some (c_phone f)) (Some (c_company f))
            (Some (c_inquiryType f)) (Some (c_message f)) (Some (c_contactMethod f))
            (Some (c_bestTime f)) (Some (c_agree f)) (Some (c_newsletter f)).

(** A request without form payload: a question. *)
Definition asks (body : Body) : bool :=
  match form_payload body with None => true | Some _ => false end.

(** The world in which the handler of a question retrieves: after the
    guard. *)
Definition after_guard (w : World) : World := (index_once w).2.

(** The prompt for a retrieved text. *)
Definition prompt_for (retrievedText : jsstring) : SystemPrompt :=
  if truthy retrievedText then PromptWithContext retrievedText else PromptWithoutContext.

(** What holds of the form state whatever the user has typed. *)
Definition form_invariant (st : FormState) : Prop :=
  forallb (λ c, is_letter c || is_ws c) (c_fullName (formData st)) = true ∧
  format_phone (numbersOnly (c_phone (formData st))) = c_phone (formData st) ∧
  shownEmailError st = emailError (c_email (formData st)).

(** A phone number as the form shows it once ten digits are typed. *)
Definition formatted_phone (d : jsstring) : jsstring :=
  str "(" ++ take 3 d ++ str ") " ++ take 3 (drop 3 d) ++ str "-"
    ++ take 4 (drop 6 d) ++ drop 10 d.

(** The key of a row of [documents]. *)
Definition keys (rows : list DocRow) : list (url * nat) :=
  map (λ row, (doc_url row, chunk_index row)) rows.

(** The language of a pattern. *)
Fixpoint matches (r : regex) (s : jsstring) : Prop :=
  match r with
  | RNone => False
  | REps => s = []
  | RClass p => ∃ c, s = [c] ∧ p c = true
  | RCat r1 r2 => ∃ s1 s2, s = s1 ++ s2 ∧ matches r1 s1 ∧ matches r2 s2
  | RAlt r1 r2 => matches r1 s ∨ matches r2 s
  | RStar r1 => ∃ ss, s = concat ss ∧ Forall (λ s', s' ≠ [] ∧ matches r1 s') ss
  end.

(* ================================================================== *)
(** * Properties *)

(** ** Strings *)

Lemma trimStart_suffix s : ∃ pre, s = pre ++ trimStart s ∧ forallb is_ws pre = true.
Proof.
  induction s as [|c s IH]; simpl.
  - exists []. done.
  - destruct (is_ws c) eqn:Hc.
    + destruct IH as (pre & Hpre & Hws). exists (c :: pre). simpl.
      rewrite Hc, Hws. split; [by f_equal | done].
    + exists []. done.
Qed.

Lemma trimStart_ws s : forallb is_ws s = true → trimStart s = [].
Proof.
  induction s as [|c s IH]; simpl; [done|].
  intros [Hc Hs]%andb_prop. rewrite Hc. auto.
Qed.

Lemma trimStart_idem s : trimStart (trimStart s) = trimStart s.
Proof.
  induction s as [|c s IH]; simpl; [done|].
  destruct (is_ws c) eqn:Hc; [done|]. simpl. by rewrite Hc.
Qed.

Lemma trimStart_head s c s' : trimStart s = c :: s' → is_ws c = false.
Proof.
  induction s as [|d s IH]; simpl; [done|].
  destruct (is_ws d) eqn:Hd; [done|]. intros [= <- _]. done.
Qed.

Lemma trimStart_fix s : match s with [] => True | c :: _ => is_ws c = false end →
  trimStart s = s.
Proof. destruct s as [|c s]; simpl; [done|]. by intros ->. Qed.

Lemma trim_ws s : forallb is_ws s = true → trim s = [].
Proof.
  intros H. unfold trim, trimEnd. by rewrite (trimStart_ws s H).
Qed.

Lemma trimStart_rev_trimStart s :
  trimStart (rev (trimStart (rev (trimStart s)))) = rev (trimStart (rev (trimStart s))).
Proof.
  set (t := trimStart s).
  destruct (trimStart_suffix (rev t)) as (pre & Hpre & _).
  set (u := trimStart (rev t)) in *.
  apply trimStart_fix.
  assert (Ht : t = rev u ++ rev pre).
  { rewrite <- rev_app_distr, <- Hpre. by rewrite rev_involutive. }
  destruct (rev u) as [|c r] eqn:Hu; [done|].
  simpl in Ht. by apply (trimStart_head s c (r ++ rev pre)).
Qed.

Lemma trim_idem s : trim (trim s) = trim s.
Proof.
  unfold trim, trimEnd. rewrite (trimStart_rev_trimStart s).
  by rewrite rev_involutive, trimStart_idem.
Qed.

Lemma jslen_nonneg s : 0 ≤ jslen s.
Proof. unfold jslen. lia. Qed.

Lemma slice_window s a n :
  0 ≤ a → 0 ≤ n →
  slice s a (a + n) = take (Z.to_nat n) (drop (Z.to_nat a) s).
Proof.
  intros Ha Hn. unfold slice, slice_index.
  destruct (Z.ltb_spec a 0); [lia|]. destruct (Z.ltb_spec (a + n) 0); [lia|].
  pose proof (jslen_nonneg s) as Hl. unfold jslen in *.
  destruct (Z.le_gt_cases a (Z.of_nat (length s))) as [Hle|Hgt].
  - rewrite (Z.min_l a) by lia.
    destruct (Z.le_gt_cases (a + n) (Z.of_nat (length s))).
    + rewrite Z.min_l by lia. f_equal. lia.
    + rewrite Z.min_r by lia.
      rewrite !take_ge; [done| |]; rewrite length_drop; lia.
  - rewrite !drop_ge by lia. by rewrite !take_nil.
Qed.

Lemma startsWith_prefix s : ∀ sub, startsWith s sub = true ↔ ∃ rest, s = sub ++ rest.
Proof.
  induction s as [|c s IH]; intros [|p sub]; simpl.
  - split; [by exists [] | done].
  - split; [done | by intros (rest & [=])].
  - split; [by exists (c :: s) | done].
  - rewrite andb_true_iff, N.eqb_eq, IH. split.
    + intros [-> (rest & ->)]. by exists rest.
    + intros (rest & [= -> ->]). split; [done | by exists rest].
Qed.

Lemma includes_infix s sub :
  includes s sub = true ↔ ∃ before rest, s = before ++ sub ++ rest.
Proof.
  induction s as [|c s IH].
  - destruct sub as [|p sub]; simpl.
    + split; [by exists [], [] | done].
    + split; [done|]. by intros ([|b before] & rest & Hs).
  - change (includes (c :: s) sub) with (startsWith (c :: s) sub || includes s sub).
    rewrite orb_true_iff, startsWith_prefix, IH. split.
    + intros [(rest & ->) | (before & rest & ->)]; [by exists [], rest|].
      by exists (c :: before), rest.
    + intros ([|b before] & rest & Hs); [left; by exists rest|].
      right. injection Hs as -> ->. by exists before, rest.
Qed.

(** ** Chunker *)

Lemma chunk_loop_mono fuel fuel' text size overlap i chunks r :
  chunk_loop fuel text size overlap i chunks = Some r →
  (fuel ≤ fuel')%nat →
  chunk_loop fuel' text size overlap i chunks = Some r.
Proof.
  revert fuel' i chunks. induction fuel as [|fuel IH]; intros fuel' i chunks; [done|].
  intros Hr Hle. destruct fuel' as [|fuel']; [lia|]. simpl in *.
  destruct (i <? jslen text); [|done].
  apply IH; [done | lia].
Qed.

(** With a step that is not positive the index never passes the start of a
    non-empty text: the loop runs for ever. *)
Lemma chunk_loop_stuck fuel text size overlap i chunks :
  size ≤ overlap → i ≤ 0 → 0 < jslen text →
  chunk_loop fuel text size overlap i chunks = None.
Proof.
  intros Hstep Hi Hlen. revert i chunks Hi.
  induction fuel as [|fuel IH]; intros i chunks Hi; [done|]. simpl.
  destruct (Z.ltb_spec i (jslen text)); [|lia].
  apply IH. lia.
Qed.

Lemma num_windows_spec len step (k : nat) :
  0 < step → 0 ≤ len →
  (k < num_windows len step)%nat ↔ Z.of_nat k * step < len.
Proof.
  intros Hstep Hlen. unfold num_windows.
  pose proof (Z.div_mod (len + step - 1) step ltac:(lia)) as Hdm.
  pose proof (Z.mod_pos_bound (len + step - 1) step Hstep) as Hmod.
  set (q := (len + step - 1) / step) in *.
  assert (0 ≤ q) by (apply Z.div_pos; lia).
  split; intros Hk.
  - assert (Z.of_nat k + 1 ≤ q) by lia. nia.
  - assert (Z.of_nat k < q) by nia. lia.
Qed.

Lemma num_windows_le_length text step :
  0 < step → (num_windows (jslen text) step ≤ length text)%nat.
Proof.
  intros Hstep. destruct (Nat.le_gt_cases (num_windows (jslen text) step) (length text)) as [|Hgt]; [done|].
  apply (num_windows_spec (jslen text) step (length text) Hstep (jslen_nonneg text)) in Hgt.
  unfold jslen in *. nia.
Qed.

Lemma chunk_loop_windows text size overlap :
  overlap < size →
  ∀ m k acc fuel,
    num_windows (jslen text) (size - overlap) = (k + m)%nat →
    (m < fuel)%nat →
    chunk_loop fuel text size overlap (Z.of_nat k * (size - overlap)) acc =
    Some (acc ++ List.filter long_enough (map trim (map (window text size overlap) (seq k m)))).
Proof.
  intros Hstep. induction m as [|m IH]; intros k acc fuel Hn Hfuel.
  - destruct fuel as [|fuel]; [lia|]. simpl.
    destruct (Z.ltb_spec (Z.of_nat k * (size - overlap)) (jslen text)) as [Hlt|_].
    + apply num_windows_spec in Hlt; [lia | lia | apply jslen_nonneg].
    + by rewrite app_nil_r.
  - destruct fuel as [|fuel]; [lia|]. simpl.
    destruct (Z.ltb_spec (Z.of_nat k * (size - overlap)) (jslen text)) as [_|Hge].
    + replace (Z.of_nat k * (size - overlap) + (size - overlap))
        with (Z.of_nat (S k) * (size - overlap)) by lia.
      rewrite IH by lia.
      fold (window text size overlap k). simpl. unfold long_enough at 2.
      destruct (50 <? jslen (trim (window text size overlap k))); [|done].
      by rewrite <- app_assoc.
    + assert (k < num_windows (jslen text) (size - overlap))%nat as Hk by lia.
      apply num_windows_spec in Hk; [lia | lia | apply jslen_nonneg].
Qed.

Lemma chunkText_windows text size overlap :
  overlap < size →
  chunkText text size overlap =
  Some (List.filter long_enough (map trim (windows text size overlap))).
Proof.
  intros Hstep. unfold chunkText, windows.
  pose proof (num_windows_le_length text (size - overlap) ltac:(lia)).
  rewrite <- (Z.mul_0_l (size - overlap)) at 1.
  change 0 with (Z.of_nat 0).
  by rewrite (chunk_loop_windows text size overlap Hstep
    (num_windows (jslen text) (size - overlap)) 0%nat []) by (done || lia).
Qed.

Lemma chunkText_nil size overlap : chunkText [] size overlap = Some [].
Proof. reflexivity. Qed.

(** The fuel of [chunkText] is enough: when it runs out, no amount of fuel
    lets the loop finish. *)
Lemma chunkText_None_diverges text size overlap :
  chunkText text size overlap = None →
  ∀ fuel, chunk_loop fuel text size overlap 0 [] = None.
Proof.
  intros Hnone fuel.
  destruct (Z.lt_ge_cases overlap size) as [Hlt|Hge].
  - by rewrite chunkText_windows in Hnone.
  - destruct text as [|c text]; [by rewrite chunkText_nil in Hnone|].
    apply chunk_loop_stuck; [lia | lia | unfold jslen; simpl; lia].
Qed.

Lemma forallb_take {A} (P : A → bool) n (l : list A) :
  forallb P l = true → forallb P (take n l) = true.
Proof.
  revert n. induction l as [|x l IH]; intros [|n]; simpl; try done.
  intros [Hx Hl]%andb_prop. rewrite Hx. by apply IH.
Qed.

Lemma forallb_drop {A} (P : A → bool) n (l : list A) :
  forallb P l = true → forallb P (drop n l) = true.
Proof.
  revert n. induction l as [|x l IH]; intros [|n]; simpl; try done.
  intros [Hx Hl]%andb_prop. by apply IH.
Qed.

Lemma slice_ws s a b : forallb is_ws s = true → forallb is_ws (slice s a b) = true.
Proof. intros H. unfold slice. by apply forallb_take, forallb_drop. Qed.

Lemma filter_trim_ws (ws : list jsstring) :
  Forall (λ w, forallb is_ws w = true) ws →
  List.filter long_enough (map trim ws) = [].
Proof.
  induction 1 as [|w ws Hw _ IH]; [done|]. simpl.
  by rewrite (trim_ws w Hw).
Qed.

Lemma windows_ws text size overlap :
  forallb is_ws text = true →
  Forall (λ w, forallb is_ws w = true) (windows text size overlap).
Proof.
  intros H. unfold windows. apply Forall_map, Forall_forall.
  intros k _. by apply slice_ws.
Qed.

Lemma windows_lookup text size overlap (k : nat) :
  0 ≤ size → overlap < size →
  (k < length (windows text size overlap))%nat →
  windows text size overlap !! k =
  Some (take (Z.to_nat size) (drop (k * Z.to_nat (size - overlap)) text)).
Proof.
  intros Hsize Hstep Hk. unfold windows in *.
  rewrite length_map, length_seq in Hk.
  rewrite list_lookup_fmap, lookup_seq_lt by done. simpl.
  unfold window. rewrite slice_window by nia.
  do 3 f_equal. nia.
Qed.

(** Every code unit of the text lies in the window that starts at or just
    before it, at the matching offset. *)
Lemma windows_cover text size overlap (j : nat) (c : N) :
  0 ≤ overlap → overlap < size →
  text !! j = Some c →
  ∃ k w, windows text size overlap !! k = Some w ∧
         (k * Z.to_nat (size - overlap) ≤ j)%nat ∧
         w !! (j - k * Z.to_nat (size - overlap))%nat = Some c.
Proof.
  intros Hov Hstep Hj.
  set (step := Z.to_nat (size - overlap)).
  assert (0 < step)%nat as Hpos by lia.
  pose proof (lookup_lt_Some _ _ _ Hj) as Hlt.
  pose proof (Nat.div_mod_eq j step) as Hdm.
  pose proof (Nat.mod_upper_bound j step ltac:(lia)) as Hmod.
  set (k := (j / step)%nat) in *.
  assert (k * step ≤ j)%nat as Hle by lia.
  assert (k < length (windows text size overlap))%nat as Hk.
  { unfold windows. rewrite length_map, length_seq.
    apply num_windows_spec; [lia | apply jslen_nonneg |]. unfold jslen. nia. }
  exists k, (take (Z.to_nat size) (drop (k * step) text)).
  split; [by apply windows_lookup; lia|]. split; [done|].
  rewrite lookup_take_lt by lia. rewrite lookup_drop.
  by replace (k * step + (j - k * step))%nat with j by lia.
Qed.

Lemma chunk_emitted text size overlap chunks p :
  chunkText text size overlap = Some chunks → p ∈ chunks →
  50 < jslen p ∧ trim p = p.
Proof.
  intros Hrun Hp.
  destruct (Z.lt_ge_cases overlap size) as [Hlt|Hge].
  - rewrite chunkText_windows in Hrun by done. injection Hrun as <-.
    apply list_elem_of_In, filter_In in Hp as [Hin Hlong].
    apply in_map_iff in Hin as (w & <- & _).
    split; [by apply Z.ltb_lt | apply trim_idem].
  - destruct text as [|c text].
    + rewrite chunkText_nil in Hrun. injection Hrun as <-. by apply elem_of_nil in Hp.
    + unfold chunkText in Hrun.
      rewrite chunk_loop_stuck in Hrun; [done | lia | lia | unfold jslen; simpl; lia].
Qed.

(** C5, as amended.  [chunkText] does not validate its parameters: no
    choice of [size] and [overlap] is rejected or clamped, the loop runs
    with the values given.  For integers [size] and [overlap] it ends for
    every text when [overlap < size]; when [overlap >= size] it ends on the
    empty text only. *)
Theorem chunkText_terminates_iff text size overlap :
  ((∃ fuel chunks, chunk_loop fuel text size overlap 0 [] = Some chunks) ↔
   (text = [] ∨ overlap < size)) ∧
  (is_Some (chunkText text size overlap) ↔ (text = [] ∨ overlap < size)).
Proof.
  assert (Hfwd : ∀ fuel chunks, chunk_loop fuel text size overlap 0 [] = Some chunks →
                 text = [] ∨ overlap < size).
  { intros fuel chunks Hrun.
    destruct (Z.lt_ge_cases overlap size) as [Hlt|Hge]; [by right|left].
    destruct text as [|c text]; [done|].
    rewrite chunk_loop_stuck in Hrun; [done | lia | lia | unfold jslen; simpl; lia]. }
  assert (Hbwd : text = [] ∨ overlap < size → is_Some (chunkText text size overlap)).
  { intros [-> | Hlt]; [by rewrite chunkText_nil|].
    by rewrite chunkText_windows. }
  split.
  - split.
    + intros (fuel & chunks & Hrun). eauto.
    + intros H. destruct (Hbwd H) as [chunks Hrun]. by exists (S (length text)), chunks.
  - split; [|done]. intros [chunks Hrun]. eauto.
Qed.

(** C5, counterexample: with [size = overlap = 1] the loop on the text "a"
    never ends, whatever the fuel. *)
Lemma chunkText_equal_overlap_diverges :
  ¬ ∃ fuel chunks, chunk_loop fuel (str "a") 1 1 0 [] = Some chunks.
Proof.
  intros (fuel & chunks & Hrun).
  rewrite chunk_loop_stuck in Hrun; [done | lia | lia | by vm_compute].
Qed.

(** C6, as amended.  For [0 ≤ overlap < size] the loop ends and emits, in
    order, the trimmed windows that are longer than 50 code units; window
    [k] is the [size] code units from position [k * (size - overlap)]; every
    code unit of the text lies in one of the windows; every emitted segment
    is trimmed and longer than 50; a text of white space yields nothing. *)
Theorem chunkText_covers text size overlap :
  0 ≤ overlap → overlap < size →
  ∃ chunks,
    chunkText text size overlap = Some chunks ∧
    chunks = List.filter long_enough (map trim (windows text size overlap)) ∧
    (∀ k : nat, (k < length (windows text size overlap))%nat →
       windows text size overlap !! k =
       Some (take (Z.to_nat size) (drop (k * Z.to_nat (size - overlap)) text))) ∧
    (∀ (j : nat) (c : N), text !! j = Some c →
       ∃ k w, windows text size overlap !! k = Some w ∧
              (k * Z.to_nat (size - overlap) ≤ j)%nat ∧
              w !! (j - k * Z.to_nat (size - overlap))%nat = Some c) ∧
    (∀ p, p ∈ chunks → 50 < jslen (trim p) ∧ trim p = p) ∧
    (forallb is_ws text = true → chunks = []).
Proof.
  intros Hov Hstep.
  exists (List.filter long_enough (map trim (windows text size overlap))).
  pose proof (chunkText_windows text size overlap Hstep) as Hrun.
  split; [done|]. split; [done|]. split; [|split; [|split]].
  - intros k Hk. apply windows_lookup; [lia | done | done].
  - intros j c Hj. by apply windows_cover.
  - intros p Hp. destruct (chunk_emitted _ _ _ _ p Hrun Hp) as [Hlen Htrim].
    by rewrite Htrim.
  - intros Hws. by apply filter_trim_ws, windows_ws.
Qed.

Lemma chunkText_covers_witness :
  0 ≤ 10 ∧ 10 < 60 ∧
  ∃ chunks,
    chunkText sample_text 60 10 = Some chunks ∧
    chunks = List.filter long_enough (map trim (windows sample_text 60 10)) ∧
    (∀ k : nat, (k < length (windows sample_text 60 10))%nat →
       windows sample_text 60 10 !! k =
       Some (take (Z.to_nat 60) (drop (k * Z.to_nat (60 - 10)) sample_text))) ∧
    (∀ (j : nat) (c : N), sample_text !! j = Some c →
       ∃ k w, windows sample_text 60 10 !! k = Some w ∧
              (k * Z.to_nat (60 - 10) ≤ j)%nat ∧
              w !! (j - k * Z.to_nat (60 - 10))%nat = Some c) ∧
    (∀ p, p ∈ chunks → 50 < jslen (trim p) ∧ trim p = p) ∧
    (forallb is_ws sample_text = true → chunks = []).
Proof.
  split; [lia|]. split; [lia|]. apply (chunkText_covers sample_text 60 10); lia.
Defined.

(** C6, counterexample: with [size = 60] and [overlap = -60] the loop steps
    by 120, so the 60 code units "b" in the middle of [gap_text] are in no
    window and in no emitted segment. *)
Lemma chunkText_negative_overlap_gap :
  (-60 < 60) ∧
  chunkText gap_text 60 (-60) = Some [replicate 60 97%N; replicate 60 97%N] ∧
  windows gap_text 60 (-60) = [replicate 60 97%N; replicate 60 97%N] ∧
  gap_text !! 60%nat = Some 98%N ∧
  ¬ (∀ (j : nat) (c : N), gap_text !! j = Some c →
       ∃ k w, windows gap_text 60 (-60) !! k = Some w ∧ c ∈ w).
Proof.
  assert (Hw : windows gap_text 60 (-60) = [replicate 60 97%N; replicate 60 97%N])
    by (by vm_compute).
  split; [lia|]. split; [by vm_compute|]. split; [done|]. split; [done|].
  intros Hcov. destruct (Hcov 60%nat 98%N eq_refl) as (k & w & Hk & Hin).
  rewrite Hw in Hk. apply list_elem_of_lookup_2 in Hk.
  rewrite !elem_of_cons, elem_of_nil in Hk.
  destruct Hk as [-> | [-> | []]]; by apply elem_of_replicate in Hin as [Hin _].
Qed.

(** ** Crawler *)

Lemma crawled_step st0 st urls found st' :
  crawled st0 urls st → crawled st found st' → crawled st0 (urls ++ found) st'.
Proof.
  intros (nav & Hnav & Hvis & Hnd & Hfresh & Hndu & Hsub)
         (nav' & Hnav' & Hvis' & Hnd' & Hfresh' & Hndu' & Hsub').
  assert (Hdisj : ∀ u, u ∈ nav → u ∉ nav').
  { intros u Hu Hu'. apply (Hfresh' u Hu'). rewrite Hvis. set_solver. }
  exists (nav ++ nav'). repeat split.
  - by rewrite Hnav', Hnav, app_assoc.
  - rewrite Hvis', Hvis, list_to_set_app_L. set_solver.
  - apply NoDup_app. auto.
  - intros u [Hu|Hu]%elem_of_app; [by apply Hfresh|].
    intros Hin. apply (Hfresh' u Hu). rewrite Hvis. set_solver.
  - apply NoDup_app. repeat split; [done | | done].
    intros u Hu Hu'. apply (Hdisj u); auto.
  - intros u [Hu|Hu]%elem_of_app; apply elem_of_app; auto.
Qed.

Lemma crawl_links_crawled (f : url → CrawlState → list url * CrawlState) :
  (∀ u st, crawled st (f u st).1 (f u st).2) →
  ∀ links st0 newLinks st,
    crawled st0 newLinks st →
    crawled st0 (crawl_links f links newLinks st).1 (crawl_links f links newLinks st).2.
Proof.
  intros Hf. induction links as [|link rest IH]; intros st0 newLinks st Hinv; [done|].
  simpl. specialize (Hf link st). destruct (f link st) as [found st'].
  apply IH. by apply (crawled_step st0 st).
Qed.

Lemma crawl_crawled E levels :
  ∀ baseUrl st, crawled st (crawl E levels baseUrl st).1 (crawl E levels baseUrl st).2.
Proof.
  assert (Hrefl : ∀ st, crawled st [] st).
  { intros st. exists []. rewrite app_nil_r. repeat split; try apply NoDup_nil_2; set_solver. }
  induction levels as [|levels IH]; intros baseUrl st; simpl; [done|].
  destruct (decide (baseUrl ∈ visited st)) as [Hin|Hnin]; [done|].
  set (st1 := mkCrawlState ({[baseUrl]} ∪ visited st) (navigated st ++ [baseUrl])).
  assert (Hone : ∀ urls, NoDup urls → (∀ u, u ∈ urls → u ∈ [baseUrl]) → crawled st urls st1).
  { intros urls Hnd Hsub. exists [baseUrl]. repeat split; simpl; try done.
    - set_solver.
    - apply NoDup_singleton.
    - intros u ->%list_elem_of_singleton. done. }
  destruct (page_links E baseUrl) as [links|e].
  - apply crawl_links_crawled; [done|]. apply Hone; [apply NoDup_singleton | done].
  - apply Hone; [apply NoDup_nil_2 | set_solver].
Qed.

(** The recursion on the levels left is the recursion of the source on
    [depth]. *)
Lemma crawlSiteRecursive_unfold E baseUrl depth st :
  crawlSiteRecursive E baseUrl depth st =
  if (depth <=? 0) || bool_decide (baseUrl ∈ visited st) then ([], st)
  else
    let st1 := mkCrawlState ({[baseUrl]} ∪ visited st) (navigated st ++ [baseUrl]) in
    match page_links E baseUrl with
    | Got links =>
        crawl_links (λ link st', crawlSiteRecursive E link (depth - 1) st') links [baseUrl] st1
    | Failed _ => ([], st1)
    end.
Proof.
  unfold crawlSiteRecursive.
  destruct (Z.leb_spec depth 0) as [Hle|Hgt]; simpl.
  - by replace (Z.to_nat depth) with 0%nat by lia.
  - replace (Z.to_nat depth) with (S (Z.to_nat (depth - 1))) by lia. simpl.
    destruct (decide (baseUrl ∈ visited st)) as [Hin|Hnin].
    + by rewrite bool_decide_true.
    + by rewrite bool_decide_false.
Qed.

(** C2.  The crawl is a total function of the link graph, the seed and
    the depth; from any state of the visited set it returns a list without
    repetition, navigates to no page twice and to no page that was in the
    visited set, and adds to the visited set exactly the pages it navigated
    to. *)
Theorem crawl_terminates_without_revisit E seedUrl maxDepth st0 :
  ∃ urls st nav,
    crawlSiteRecursive E seedUrl maxDepth st0 = (urls, st) ∧
    NoDup urls ∧
    navigated st = navigated st0 ++ nav ∧
    NoDup nav ∧
    (∀ u, u ∈ visited st0 → u ∉ nav) ∧
    visited st = visited st0 ∪ list_to_set nav ∧
    (∀ u, u ∈ urls → u ∈ nav).
Proof.
  pose proof (crawl_crawled E (Z.to_nat maxDepth) seedUrl st0) as Hinv.
  unfold crawlSiteRecursive.
  destruct (crawl E (Z.to_nat maxDepth) seedUrl st0) as [urls st].
  destruct Hinv as (nav & Hnav & Hvis & Hnd & Hfresh & Hndu & Hsub).
  exists urls, st, nav. repeat split; try done.
  intros u Hu Hn. by apply (Hfresh u).
Qed.

Example crawl_cyclic_site :
  (crawlSiteRecursive cyclic_site (str "/") 2 new_crawl).1 = [str "/"; str "/about"] ∧
  navigated (crawlSiteRecursive cyclic_site (str "/") 2 new_crawl).2
    = [str "/"; str "/about"; str "/down"] ∧
  (crawlSiteRecursive cyclic_site (str "/") 5 new_crawl).1 = [str "/"; str "/about"].
Proof. by vm_compute. Qed.

(** ** Embedder *)

Lemma backoff_trace_S value delay k :
  backoff_trace value delay (S k) =
  [EvEmbed value; EvSleep delay] ++ backoff_trace value (delay * 2) k.
Proof.
  unfold backoff_trace. rewrite <- cons_seq, <- fmap_S_seq. simpl.
  rewrite Z.mul_1_r. do 2 f_equal.
  induction (seq 0 k) as [|i l IH]; [done|].
  rewrite fmap_cons. cbn [flat_map app]. rewrite IH.
  do 3 f_equal. rewrite Nat2Z.inj_succ, Z.pow_succ_r by lia. lia.
Qed.

Lemma embed_loop_backoff E value k :
  ∀ left delay w,
    (∀ i, (i < k)%nat →
       ∃ e, embed_api E (embed_calls w + i) value = Failed e ∧ rate_limited e = true) →
    embed_loop E (k + left) value delay w =
    embed_loop E left value (delay * 2 ^ Z.of_nat k) (after_backoff w value delay k).
Proof.
  induction k as [|k IH]; intros left delay w Hlim.
  - unfold after_backoff, backoff_trace. simpl.
    rewrite Z.mul_1_r, Nat.add_0_r, app_nil_r. by destruct w.
  - destruct (Hlim 0%nat ltac:(lia)) as (e & He & Hrate).
    rewrite Nat.add_0_r in He.
    apply andb_prop in Hrate as [Hsc Hq].
    simpl. unfold bind at 1, call_embed at 1. rewrite He, Hsc, Hq.
    unfold bind at 1, sleep, emit. simpl.
    rewrite IH.
    + rewrite Nat2Z.inj_succ, Z.pow_succ_r by lia.
      replace (delay * 2 * 2 ^ Z.of_nat k) with (delay * (2 * 2 ^ Z.of_nat k)) by lia.
      f_equal. unfold after_backoff. simpl.
      rewrite backoff_trace_S. simpl. rewrite <- !app_assoc. simpl.
      f_equal. lia.
    + intros i Hi. simpl.
      destruct (Hlim (S i) ltac:(lia)) as (e' & He' & Hrate').
      exists e'. split; [|done]. rewrite <- He'. f_equal. lia.
Qed.

(** The test of the loop, read as a property of the thrown value. *)
Lemma rate_limited_retried err : rate_limited err = true ↔ retried err.
Proof.
  unfold rate_limited, retried. destruct err as [sc msg|m|v]; simpl.
  - rewrite orb_true_iff. split.
    + intros [Hsc | Hmsg]; exists sc, msg; (split; [done|]).
      * left. destruct sc as [c|]; [|done]. by apply Z.eqb_eq in Hsc as ->.
      * right. destruct msg as [m|]; [|done].
        apply includes_infix in Hmsg as (before & rest & ->). by exists before, rest.
    + intros (sc' & msg' & [= <- <-] & [-> | (before & rest & ->)]); [by left|].
      right. apply includes_infix. by exists before, rest.
  - split; [done|]. by intros (sc & msg & [=] & _).
  - split; [done|]. by intros (sc & msg & [=] & _).
Qed.

Lemma not_retried_rate_limited err : ¬ retried err → rate_limited err = false.
Proof.
  intros Hnot. destruct (rate_limited err) eqn:Hrate; [|done].
  by apply rate_limited_retried in Hrate.
Qed.

(** C4, as amended.  The failures that [embedText] retries are the thrown
    objects with a [statusCode] property whose status code is 429 or whose
    message contains "exhausted".  When the first [n] attempts fail in this
    way, [embedText] has called the model [n] times and slept [delay],
    [2 * delay], ..., [2 ^ (n - 1) * delay] after them in turn.  If [n] is
    the (integer) number of retries, it then fails with the max-retries
    error; otherwise the next attempt decides: its embedding is returned, or
    its error, when it is of any other kind, is thrown at once, with no
    sleep and no further attempt. *)
Theorem embedText_retry E value retries delay w (n : nat) :
  (∀ i, (i < n)%nat →
     ∃ e, embed_api E (embed_calls w + i) value = Failed e ∧ retried e) →
  (n ≤ Z.to_nat retries)%nat →
  (n = Z.to_nat retries →
     embedText E value retries delay w =
     (Throw max_retries_error, after_backoff w value delay n)) ∧
  ((n < Z.to_nat retries)%nat →
     ∀ v, embed_api E (embed_calls w + n) value = Got v →
     embedText E value retries delay w =
     (Ok v, after_call (after_backoff w value delay n) value)) ∧
  ((n < Z.to_nat retries)%nat →
     ∀ e, embed_api E (embed_calls w + n) value = Failed e → ¬ retried e →
     embedText E value retries delay w =
     (Throw e, after_call (after_backoff w value delay n) value)).
Proof.
  intros Hlim Hn. unfold embedText.
  assert (Hrun : ∀ left, Z.to_nat retries = (n + left)%nat →
            embed_loop E (Z.to_nat retries) value delay w =
            embed_loop E left value (delay * 2 ^ Z.of_nat n) (after_backoff w value delay n)).
  { intros left ->. apply embed_loop_backoff. intros i Hi.
    destruct (Hlim i Hi) as (e & He & Hre). exists e. split; [done|].
    by apply rate_limited_retried. }
  split; [|split].
  - intros Heq. by rewrite (Hrun 0%nat) by lia.
  - intros Hlt v Hv.
    rewrite (Hrun (S (Z.to_nat retries - S n))) by lia.
    simpl. unfold bind, call_embed. simpl. by rewrite Hv.
  - intros Hlt e He Hrate%not_retried_rate_limited.
    rewrite (Hrun (S (Z.to_nat retries - S n))) by lia.
    simpl. unfold bind, call_embed. simpl. rewrite He.
    unfold rate_limited in Hrate.
    destruct (has_statusCode e); [|done]. simpl in Hrate. by rewrite Hrate.
Qed.

Lemma embedText_retry_witness :
  (∀ i, (i < 2)%nat →
     ∃ e, embed_api flaky_model (embed_calls initial_world + i) (str "hello") = Failed e ∧
          retried e) ∧
  (2 ≤ Z.to_nat 5)%nat ∧
  embedText flaky_model (str "hello") 5 2000 initial_world =
  (Ok [1; 2; 3],
   mkWorld [] [] false 3
     [EvEmbed (str "hello"); EvSleep 2000; EvEmbed (str "hello"); EvSleep 4000;
      EvEmbed (str "hello")]).
Proof.
  assert (Hlim : ∀ i, (i < 2)%nat →
     ∃ e, embed_api flaky_model (embed_calls initial_world + i) (str "hello") = Failed e ∧
          retried e).
  { intros [|[|i]] Hi; [| |lia];
      (eexists; split; [reflexivity|]; eexists _, _; split; [reflexivity|by left]). }
  split; [exact Hlim|]. split; [simpl; lia|].
  apply (embedText_retry flaky_model (str "hello") 5 2000 initial_world 2 Hlim);
    [simpl; lia | simpl; lia | reflexivity].
Defined.

(** C4, counterexample: a quota failure that is not an object with a
    [statusCode] property, here an [Error] whose message says that the
    resource has been exhausted, is not retried: [embedText] throws it after
    the first call of the model, without any sleep, with all five retries
    left. *)
Lemma embedText_quota_error_not_retried :
  includes (str "Failed after 3 attempts. Last error: Resource has been exhausted (e.g. check quota).")
           (str "exhausted") = true ∧
  embed_api quota_without_status 0 (str "hello") = Failed quota_error ∧
  embedText quota_without_status (str "hello") 5 2000 initial_world =
  (Throw quota_error, mkWorld [] [] false 1 [EvEmbed (str "hello")]).
Proof. by vm_compute. Qed.

(** An error that mentions "exhausted" but has no [statusCode] property is
    not retried; one with the property and that message is. *)
Example rate_limited_examples :
  rate_limited (PlainError (str "Resource has been exhausted")) = false ∧
  rate_limited (ApiError None (Some (str "Resource has been exhausted"))) = true ∧
  rate_limited (ApiError (Some 429) None) = true ∧
  rate_limited (ApiError (Some 500) (Some (str "Internal error"))) = false.
Proof. by vm_compute. Qed.

Lemma inserted_embed_events evs : forallb embed_event evs = true → inserted evs = [].
Proof.
  induction evs as [|ev evs IH]; [done|].
  unfold inserted in *. destruct ev; simpl; try done; apply IH.
Qed.

Lemma not_start_embed_events evs :
  forallb embed_event evs = true → List.filter is_start evs = [].
Proof.
  induction evs as [|ev evs IH]; [done|].
  destruct ev; simpl; try done; apply IH.
Qed.

(** One iteration of the loop. *)
Lemma embed_loop_S E left value delay w :
  embed_loop E (S left) value delay w =
  match embed_api E (embed_calls w) value with
  | Got v => (Ok v, after_call w value)
  | Failed err =>
      if rate_limited err
      then embed_loop E left value (delay * 2) (after_sleep (after_call w value) delay)
      else (Throw err, after_call w value)
  end.
Proof.
  simpl. unfold bind, call_embed, rate_limited.
  destruct (embed_api E (embed_calls w) value) as [v|e]; [done|].
  by destruct (has_statusCode e), (quota_hit e).
Qed.

(** [embedText] ends, touches neither table nor the flag, and only calls
    the model and sleeps. *)
Lemma embed_loop_frame E value :
  ∀ left delay w,
    (embed_loop E left value delay w).1 ≠ Hang ∧
    documents (embed_loop E left value delay w).2 = documents w ∧
    user_leads (embed_loop E left value delay w).2 = user_leads w ∧
    indexingStarted (embed_loop E left value delay w).2 = indexingStarted w ∧
    ∃ evs, trace (embed_loop E left value delay w).2 = trace w ++ evs ∧
           forallb embed_event evs = true.
Proof.
  induction left as [|left IH]; intros delay w.
  - simpl. do 4 (split; [done|]). exists []. by rewrite app_nil_r.
  - rewrite embed_loop_S.
    destruct (embed_api E (embed_calls w) value) as [v|e].
    + do 4 (split; [done|]). by exists [EvEmbed value].
    + destruct (rate_limited e).
      * destruct (IH (delay * 2) (after_sleep (after_call w value) delay))
          as (Hh & Hd & Hu & Hf & evs & Ht & Hev).
        do 4 (split; [done|]).
        exists ([EvEmbed value; EvSleep delay] ++ evs).
        split; [|done]. rewrite Ht. simpl. by rewrite <- !app_assoc.
      * do 4 (split; [done|]). by exists [EvEmbed value].
Qed.

(** ** Indexer *)

(** [scrapePage] never hangs: with the defaults the chunker ends. *)
Lemma scrapePage_eq E u w :
  scrapePage E u w =
  match page_text E u with
  | Got text => (Ok (default_chunks text), after_event w (EvScrapeGoto u))
  | Failed e => (Throw e, after_event w (EvScrapeGoto u))
  end.
Proof.
  unfold scrapePage, bind, emit. simpl.
  destruct (page_text E u) as [text|e]; [|done].
  by rewrite chunkText_windows by lia.
Qed.

Lemma ensurePageIndexed_eq E u w :
  ensurePageIndexed E u w =
  if counted_as_indexed E w u then (Ok tt, after_event w (EvCount u))
  else
    match page_text E u with
    | Got text =>
        index_chunks E u 0 (default_chunks text)
          (after_event (after_event w (EvCount u)) (EvScrapeGoto u))
    | Failed e => (Throw e, after_event (after_event w (EvCount u)) (EvScrapeGoto u))
    end.
Proof.
  unfold ensurePageIndexed, bind at 1, count_documents, counted_as_indexed. simpl.
  assert (Hrest : bind (scrapePage E u) (index_chunks E u 0) (after_event w (EvCount u)) =
            match page_text E u with
            | Got text =>
                index_chunks E u 0 (default_chunks text)
                  (after_event (after_event w (EvCount u)) (EvScrapeGoto u))
            | Failed e => (Throw e, after_event (after_event w (EvCount u)) (EvScrapeGoto u))
            end).
  { unfold bind. rewrite scrapePage_eq. by destruct (page_text E u). }
  destruct (count_fails E (length (trace w)) u); simpl; [done|].
  by destruct (0 <? count_rows u (documents w))%nat.
Qed.

Lemma inserted_app evs1 evs2 : inserted (evs1 ++ evs2) = inserted evs1 ++ inserted evs2.
Proof. unfold inserted. apply omap_app. Qed.

(** One insert: the row is requested, and stored unless rejected. *)
Lemma insert_document_kept E row w :
  ∃ kept,
    documents (insert_document E row w).2 = documents w ++ kept ∧
    sublist kept [row] ∧
    ((∀ n row', insert_rejected E n row' = false) → kept = [row]).
Proof.
  unfold insert_document. simpl.
  destruct (insert_rejected E (length (trace w)) row) eqn:Hrej.
  - exists []. rewrite app_nil_r. split; [done|]. split; [apply sublist_nil_l|].
    intros Hnone. by rewrite Hnone in Hrej.
  - exists [row]. by repeat split.
Qed.

Lemma index_chunks_stored E u :
  ∀ chunks i w, ∃ rows, stored E u i chunks w (index_chunks E u i chunks w) rows.
Proof.
  induction chunks as [|chunk rest IH]; intros i w.
  - exists []. split; simpl; try done.
    + exists []. by rewrite app_nil_r.
    + exists []. by rewrite app_nil_r.
  - simpl. unfold bind at 1. unfold embedText.
    destruct (embed_loop_frame E chunk (Z.to_nat 5) 2000 w)
      as (Hh & Hd & Hu & Hf & evs & Ht & Hev).
    destruct (embed_loop E (Z.to_nat 5) chunk 2000 w) as [[v|e|] w1]; simpl in *.
    + set (row := mkDocRow u i chunk v).
      change (bind (insert_document E row) (λ _, index_chunks E u (S i) rest) w1)
        with (index_chunks E u (S i) rest (insert_document E row w1).2).
      destruct (insert_document_kept E row w1) as (kept1 & Hk1 & Hsub1 & Hall1).
      assert (Htr1 : trace (insert_document E row w1).2 = trace w1 ++ [EvInsertDoc row]) by done.
      set (w2 := (insert_document E row w1).2) in *.
      destruct (IH (S i) w2) as [rows Hrows].
      destruct Hrows as [(evs' & Htr & Hins) (kept & Hdoc & Hsub & Hkall) Hidx Htxt Hurl Hall Hend].
      exists (row :: rows). split.
      * exists (evs ++ [EvInsertDoc row] ++ evs'). split.
        -- cbn [snd]. rewrite Htr, Htr1, Ht. by rewrite <- !app_assoc.
        -- rewrite !inserted_app, (inserted_embed_events evs Hev), Hins. done.
      * exists (kept1 ++ kept). split; [cbn [snd]; by rewrite Hdoc, Hk1, Hd, <- app_assoc|].
        split; [by apply (sublist_app kept1 [row] kept rows)|].
        intros Hnone. by rewrite (Hall1 Hnone), (Hkall Hnone).
      * simpl. by rewrite Hidx.
      * simpl. by rewrite Htxt.
      * by constructor.
      * intros Hok. simpl. by rewrite (Hall Hok).
      * done.
    + exists []. split; simpl; try done.
      * exists evs. split; [done | by apply inserted_embed_events].
      * exists []. by rewrite Hd, app_nil_r.
    + done.
Qed.

Lemma count_rows_app u rows1 rows2 :
  count_rows u (rows1 ++ rows2) = (count_rows u rows1 + count_rows u rows2)%nat.
Proof. unfold count_rows. by rewrite List.filter_app, length_app. Qed.

Lemma count_rows_own u rows :
  Forall (λ row, doc_url row = u) rows → count_rows u rows = length rows.
Proof.
  induction 1 as [|row rows Hrow _ IH]; [done|].
  unfold count_rows in *. cbn [List.filter]. unfold url_eqb at 1.
  rewrite bool_decide_true by done. cbn [length]. by rewrite IH.
Qed.

(** One pass over a page: the rows of its insert requests, and what the
    store kept of them. *)
Lemma ensurePageIndexed_stored E u w :
  ∃ rows,
    (∃ evs, trace (ensurePageIndexed E u w).2 = trace w ++ evs ∧ inserted evs = rows) ∧
    (∃ kept, documents (ensurePageIndexed E u w).2 = documents w ++ kept ∧
             sublist kept rows ∧
             ((∀ n row, insert_rejected E n row = false) → kept = rows)) ∧
    map chunk_index rows = seq 0 (length rows) ∧
    Forall (λ row, doc_url row = u) rows ∧
    (∀ text, page_text E u = Got text →
       map doc_text rows = take (length rows) (default_chunks text) ∧
       ((ensurePageIndexed E u w).1 = Ok tt → counted_as_indexed E w u = false →
        length rows = length (default_chunks text))) ∧
    (counted_as_indexed E w u = true → rows = []) ∧
    (ensurePageIndexed E u w).1 ≠ Hang.
Proof.
  rewrite ensurePageIndexed_eq.
  destruct (counted_as_indexed E w u) eqn:Hcount.
  - exists []. simpl. split; [by exists [EvCount u]|].
    split; [exists []; by rewrite app_nil_r|].
    split; [done|]. split; [done|]. split; [|done].
    intros text _. split; [done|]. done.
  - destruct (page_text E u) as [text|e].
    + destruct (index_chunks_stored E u (default_chunks text) 0
                  (after_event (after_event w (EvCount u)) (EvScrapeGoto u))) as [rows Hrows].
      destruct Hrows as [(evs & Htr & Hins) Hdoc Hidx Htxt Hurl Hall Hend].
      exists rows. split.
      { exists ([EvCount u; EvScrapeGoto u] ++ evs). split.
        - rewrite Htr. simpl. by rewrite <- !app_assoc.
        - by rewrite inserted_app. }
      split; [done|]. split; [done|]. split; [done|]. split; [|done].
      intros text' [= <-]. split; [done|]. intros Hok _. by apply Hall.
    + exists []. simpl. 
      split; [by exists [EvCount u; EvScrapeGoto u]; rewrite <- app_assoc|].
      split; [exists []; by rewrite app_nil_r|].
      split; [done|]. split; [done|]. split; [|done]. intros text [=].
Qed.

(** C9.  The insert requests of one pass of [ensurePageIndexed] over a page
    are all for that page; their [chunk_index] values are 0, 1, 2, ... in
    the order of the requests, hence pairwise different; their texts are the
    chunks of the page in extraction order: all of them when the pass
    completes on a page not counted as indexed, the first ones when an
    embedding fails on the way.  The store may reject a request, and the
    code does not look: the rows stored are rows requested, in the same
    order, and all of them when the store rejects none. *)
Theorem chunk_index_contiguous E u w :
  ∃ rows evs kept,
    trace (ensurePageIndexed E u w).2 = trace w ++ evs ∧ inserted evs = rows ∧
    map chunk_index rows = seq 0 (length rows) ∧
    NoDup (map chunk_index rows) ∧
    Forall (λ row, doc_url row = u) rows ∧
    (∀ text chunks, page_text E u = Got text → chunkText text 800 200 = Some chunks →
       map doc_text rows = take (length rows) chunks ∧
       ((ensurePageIndexed E u w).1 = Ok tt → counted_as_indexed E w u = false →
        length rows = length chunks)) ∧
    documents (ensurePageIndexed E u w).2 = documents w ++ kept ∧
    sublist kept rows ∧
    ((∀ n row, insert_rejected E n row = false) → kept = rows).
Proof.
  destruct (ensurePageIndexed_stored E u w)
    as (rows & (evs & Htr & Hins) & (kept & Hdoc & Hsub & Hall) & Hidx & Hurl & Htxt & _).
  exists rows, evs, kept. do 3 (split; [done|]).
  split; [rewrite Hidx; apply NoDup_seq|]. split; [done|]. split; [|done].
  intros text chunks Htext Hchunks.
  rewrite chunkText_windows in Hchunks by lia. injection Hchunks as <-.
  by apply Htxt.
Qed.

Lemma chunk_index_contiguous_witness :
  (∀ n row, insert_rejected cyclic_site n row = false) ∧
  ∃ rows evs,
    trace (ensurePageIndexed cyclic_site (str "/") initial_world).2 = [] ++ evs ∧
    inserted evs = rows ∧
    documents (ensurePageIndexed cyclic_site (str "/") initial_world).2 = [] ++ rows ∧
    map chunk_index rows = [0%nat] ∧
    map doc_text rows = [sample_text].
Proof.
  assert (Hnone : ∀ n row, insert_rejected cyclic_site n row = false) by reflexivity.
  split; [exact Hnone|].
  destruct (chunk_index_contiguous cyclic_site (str "/") initial_world)
    as (rows & evs & kept & Htr & Hins & _ & _ & _ & _ & Hdoc & _ & Hall).
  exists rows, evs. split; [exact Htr|]. split; [exact Hins|].
  rewrite (Hall Hnone) in Hdoc. split; [exact Hdoc|].
  assert (Hrows : rows = [mkDocRow (str "/") 0 sample_text [1; 2; 3]]).
  { rewrite <- (app_nil_l rows). simpl in Hdoc. rewrite <- Hdoc. by vm_compute. }
  rewrite Hrows. split; reflexivity.
Defined.

Lemma count_rows_kept u rows kept :
  Forall (λ row, doc_url row = u) rows → sublist kept rows → count_rows u kept = length kept.
Proof.
  intros Hurl Hsub. apply count_rows_own.
  rewrite Forall_forall in *. intros row Hin. apply Hurl.
  by apply (elem_of_sublist kept rows).
Qed.

(** C3, as amended.  When the count query answers, and with a count above
    zero, [ensurePageIndexed] only counts: no navigation, no call of the
    model, no insert.  So when a call has stored a row for the page and the
    count query of the next call on that page answers, the next call only
    counts, and the two calls have sent one set of inserts. *)
Theorem ensurePageIndexed_idempotent E u w :
  (counted_as_indexed E w u = true →
     ensurePageIndexed E u w = (Ok tt, after_event w (EvCount u))) ∧
  (documents (ensurePageIndexed E u w).2 ≠ documents w →
   count_fails E (length (trace (ensurePageIndexed E u w).2)) u = false →
   ensurePageIndexed E u (ensurePageIndexed E u w).2 =
     (Ok tt, after_event (ensurePageIndexed E u w).2 (EvCount u)) ∧
   inserted (drop (length (trace (ensurePageIndexed E u w).2))
               (trace (ensurePageIndexed E u (ensurePageIndexed E u w).2).2)) = []).
Proof.
  assert (Hnoop : ∀ w', counted_as_indexed E w' u = true →
            ensurePageIndexed E u w' = (Ok tt, after_event w' (EvCount u))).
  { intros w' Hcount. by rewrite ensurePageIndexed_eq, Hcount. }
  split; [apply Hnoop|].
  destruct (ensurePageIndexed_stored E u w)
    as (rows & _ & (kept & Hdoc & Hsub & _) & _ & Hurl & _).
  set (w1 := (ensurePageIndexed E u w).2) in *.
  intros Hgrew Hanswers.
  assert (Hcount : counted_as_indexed E w1 u = true).
  { unfold counted_as_indexed. rewrite Hanswers. simpl. apply Nat.ltb_lt.
    rewrite Hdoc, count_rows_app, (count_rows_kept u rows kept Hurl Hsub).
    destruct kept; [by rewrite app_nil_r in Hdoc | simpl; lia]. }
  rewrite (Hnoop w1 Hcount). split; [done|]. simpl.
  by rewrite drop_app_length.
Qed.

Lemma ensurePageIndexed_idempotent_witness :
  counted_as_indexed cyclic_site
    (ensurePageIndexed cyclic_site (str "/") initial_world).2 (str "/") = true ∧
  ensurePageIndexed cyclic_site (str "/")
    (ensurePageIndexed cyclic_site (str "/") initial_world).2 =
  (Ok tt, after_event (ensurePageIndexed cyclic_site (str "/") initial_world).2
                      (EvCount (str "/"))).
Proof.
  assert (Hcount : counted_as_indexed cyclic_site
    (ensurePageIndexed cyclic_site (str "/") initial_world).2 (str "/") = true)
    by (by vm_compute).
  split; [exact Hcount|].
  exact (proj1 (ensurePageIndexed_idempotent cyclic_site (str "/")
                  (ensurePageIndexed cyclic_site (str "/") initial_world).2) Hcount).
Defined.

(** C3, counterexample.  On a store whose count query fails, a page that
    has a row is scraped, embedded and inserted again: after two calls in a
    row the table holds the same row twice, and two sets of inserts were
    sent.  And on a store that works, a page whose text is too short for a
    chunk is navigated to by both calls: the second is not a no-op. *)
Lemma ensurePageIndexed_reindexes_on_null_count :
  let row := mkDocRow (str "/") 0 sample_text [1; 2; 3] in
  let first := ensurePageIndexed blind_store (str "/") initial_world in
  let second := ensurePageIndexed blind_store (str "/") first.2 in
  documents first.2 = [row] ∧
  (0 < count_rows (str "/") (documents first.2))%nat ∧
  second ≠ (Ok tt, after_event first.2 (EvCount (str "/"))) ∧
  drop (length (trace first.2)) (trace second.2) =
    [EvCount (str "/"); EvScrapeGoto (str "/"); EvEmbed sample_text; EvInsertDoc row] ∧
  inserted (trace second.2) = [row; row] ∧
  documents second.2 = [row; row] ∧
  trace (ensurePageIndexed tiny_site (str "/")
           (ensurePageIndexed tiny_site (str "/") initial_world).2).2 =
    [EvCount (str "/"); EvScrapeGoto (str "/"); EvCount (str "/"); EvScrapeGoto (str "/")].
Proof.
  cbv zeta. split; [by vm_compute|]. split; [vm_compute; lia|].
  split; [by vm_compute|]. by vm_compute.
Qed.

(** ** Retriever *)

Lemma searchDocuments_eq E query topK w :
  searchDocuments E query topK w =
  match embedText E query 5 2000 w with
  | (Ok queryEmb, w1) =>
      let answer := match_documents E (documents w1) queryEmb topK in
      match rpc_error answer with
      | Some error => (Throw error, after_event w1 (EvMatchDocuments queryEmb topK))
      | None => (Ok (join blank_line (map match_text (default [] (rpc_data answer)))),
                 after_event w1 (EvMatchDocuments queryEmb topK))
      end
  | (Throw e, w1) => (Throw e, w1)
  | (Hang, w1) => (Hang, w1)
  end.
Proof.
  unfold searchDocuments, bind at 1.
  destruct (embedText E query 5 2000 w) as [[v|e|] w1]; try done.
  unfold bind, rpc_match_documents. simpl.
  by destruct (rpc_error (match_documents E (documents w1) v topK)).
Qed.

(** C7.  [searchDocuments] fails as [embedText] fails, without asking the
    store; otherwise it asks the store for [topK] matches of the embedding
    of the query, throws the error of the store if there is one, and else
    returns the texts joined by a blank line, in the order of the store:
    the empty string when there is no match.  It always ends. *)
Theorem searchDocuments_spec E query topK w :
  (∀ e w1, embedText E query 5 2000 w = (Throw e, w1) →
     searchDocuments E query topK w = (Throw e, w1)) ∧
  (∀ queryEmb w1, embedText E query 5 2000 w = (Ok queryEmb, w1) →
     let answer := match_documents E (documents w1) queryEmb topK in
     let w2 := after_event w1 (EvMatchDocuments queryEmb topK) in
     (∀ error, rpc_error answer = Some error →
        searchDocuments E query topK w = (Throw error, w2)) ∧
     (∀ rows, rpc_error answer = None → default [] (rpc_data answer) = rows →
        searchDocuments E query topK w = (Ok (join blank_line (map match_text rows)), w2)) ∧
     (rpc_error answer = None → default [] (rpc_data answer) = [] →
        searchDocuments E query topK w = (Ok [], w2))) ∧
  (searchDocuments E query topK w).1 ≠ Hang.
Proof.
  rewrite searchDocuments_eq. split; [|split].
  - by intros e w1 ->.
  - intros v w1 ->. simpl. split; [|split].
    + by intros error ->.
    + by intros rows -> <-.
    + by intros -> ->.
  - pose proof (embed_loop_frame E query (Z.to_nat 5) 2000 w) as [Hh _].
    unfold embedText. destruct (embed_loop E (Z.to_nat 5) query 2000 w) as [[v|e|] w1]; try done.
    by destruct (rpc_error (match_documents E (documents w1) v topK)).
Qed.

Lemma searchDocuments_spec_witness :
  embedText two_matches (str "web sites") 5 2000 initial_world =
    (Ok [1; 2; 3], after_call initial_world (str "web sites")) ∧
  searchDocuments two_matches (str "web sites") 4 initial_world =
    (Ok (str "first" ++ [10%N; 10%N] ++ str "second"),
     after_event (after_call initial_world (str "web sites"))
                 (EvMatchDocuments [1; 2; 3] 4)).
Proof.
  assert (Hemb : embedText two_matches (str "web sites") 5 2000 initial_world =
    (Ok [1; 2; 3], after_call initial_world (str "web sites"))) by reflexivity.
  split; [exact Hemb|].
  destruct (searchDocuments_spec two_matches (str "web sites") 4 initial_world)
    as (_ & Hok & _).
  destruct (Hok _ _ Hemb) as (_ & Hrows & _).
  exact (Hrows _ eq_refl eq_refl).
Defined.

(** ** Request handler *)

Lemma calm_ret {A} (a : A) : calm (ret a).
Proof. intros w. split; [done|]. exists []. by rewrite app_nil_r. Qed.

Lemma calm_throw {A} e : calm (@throw A e).
Proof. intros w. split; [done|]. exists []. by rewrite app_nil_r. Qed.

Lemma calm_emit ev : is_start ev = false → calm (emit ev).
Proof. intros Hev w. split; [done|]. exists [ev]. simpl. by rewrite Hev. Qed.

Lemma calm_bind {A B} (m : M A) (k : A → M B) :
  calm m → (∀ a, calm (k a)) → calm (bind m k).
Proof.
  intros Hm Hk w. unfold bind.
  destruct (Hm w) as (Hf & evs & Ht & Hs).
  destruct (m w) as [[a|e|] w1]; simpl in *; [|by eauto..].
  destruct (Hk a w1) as (Hf' & evs' & Ht' & Hs').
  split; [congruence|]. exists (evs ++ evs').
  rewrite Ht', Ht, <- app_assoc, List.filter_app, Hs, Hs'. done.
Qed.

Lemma calm_try_catch {A} (m : M A) (handler : JsError → M A) :
  calm m → (∀ e, calm (handler e)) → calm (try_catch m handler).
Proof.
  intros Hm Hh w. unfold try_catch.
  destruct (Hm w) as (Hf & evs & Ht & Hs).
  destruct (m w) as [[a|e|] w1]; simpl in *; [by eauto | | by eauto].
  destruct (Hh e w1) as (Hf' & evs' & Ht' & Hs').
  split; [congruence|]. exists (evs ++ evs').
  rewrite Ht', Ht, <- app_assoc, List.filter_app, Hs, Hs'. done.
Qed.

Lemma calm_embedText E value retries delay : calm (embedText E value retries delay).
Proof.
  intros w. unfold embedText.
  destruct (embed_loop_frame E value (Z.to_nat retries) delay w)
    as (_ & _ & _ & Hf & evs & Ht & Hev).
  split; [done|]. exists evs. split; [done | by apply not_start_embed_events].
Qed.

Lemma calm_rpc E queryEmb topK : calm (rpc_match_documents E queryEmb topK).
Proof. intros w. split; [done|]. by exists [EvMatchDocuments queryEmb topK]. Qed.

Lemma calm_insert_lead E row : calm (insert_lead E row).
Proof.
  intros w. unfold insert_lead.
  destruct (lead_insert_error E (user_leads w) row); (split; [done|]);
    by exists [EvInsertLead row].
Qed.

Create HintDb calm.
#[local] Hint Resolve calm_ret calm_throw calm_emit calm_bind calm_try_catch
  calm_embedText calm_rpc calm_insert_lead : calm.

Lemma calm_searchDocuments E query topK : calm (searchDocuments E query topK).
Proof.
  unfold searchDocuments. apply calm_bind; [auto with calm|]. intros v.
  apply calm_bind; [auto with calm|]. intros answer.
  destruct (rpc_error answer); auto with calm.
Qed.

Lemma calm_hang {A} : calm (@hang A).
Proof. intros w. split; [done|]. exists []. by rewrite app_nil_r. Qed.

Lemma calm_count_documents E u : calm (count_documents E u).
Proof. intros w. split; [done|]. by exists [EvCount u]. Qed.

Lemma calm_insert_document E row : calm (insert_document E row).
Proof. intros w. split; [done|]. by exists [EvInsertDoc row]. Qed.

#[local] Hint Resolve calm_hang calm_count_documents calm_insert_document : calm.

Lemma calm_scrapePage E u : calm (scrapePage E u).
Proof.
  unfold scrapePage. apply calm_bind; [auto with calm|]. intros _.
  destruct (page_text E u) as [text|e]; [|auto with calm].
  destruct (chunkText text 800 200); auto with calm.
Qed.

Lemma calm_index_chunks E u chunks : ∀ i, calm (index_chunks E u i chunks).
Proof.
  induction chunks as [|chunk rest IH]; intros i; simpl; [auto with calm|].
  apply calm_bind; [auto with calm|]. intros v.
  apply calm_bind; auto with calm.
Qed.

Lemma calm_ensurePageIndexed E u : calm (ensurePageIndexed E u).
Proof.
  unfold ensurePageIndexed. apply calm_bind; [auto with calm|]. intros count.
  destruct (positive count); [auto with calm|].
  apply calm_bind; [apply calm_scrapePage|]. intros chunks. apply calm_index_chunks.
Qed.

Lemma calm_index_pages E urls : calm (index_pages E urls).
Proof.
  induction urls as [|u rest IH]; simpl; [auto with calm|].
  apply calm_bind; [|done].
  apply calm_try_catch; [apply calm_ensurePageIndexed | auto with calm].
Qed.

Lemma calm_emit_all evs : forallb (λ ev, negb (is_start ev)) evs = true → calm (emit_all evs).
Proof.
  induction evs as [|ev evs IH]; simpl; [auto with calm|].
  intros [Hev Hevs]%andb_prop. apply calm_bind; [|auto].
  apply calm_emit. by destruct (is_start ev).
Qed.

(** The launched run itself never writes the flag and launches nothing. *)
Lemma calm_ensurePagesIndexed E baseUrl : calm (ensurePagesIndexed E baseUrl).
Proof.
  unfold ensurePagesIndexed.
  destruct (crawlSiteRecursive E baseUrl 2 new_crawl) as [urls st].
  apply calm_bind; [|intros _; apply calm_index_pages].
  apply calm_emit_all. by induction (navigated st).
Qed.

Lemma calm_retrieve_and_answer E conversation text :
  calm (retrieve_and_answer E conversation text).
Proof.
  unfold retrieve_and_answer. apply calm_bind.
  - destruct (truthy text); [|auto with calm].
    apply calm_try_catch; [apply calm_searchDocuments | auto with calm].
  - intros retrieved. destruct (convert_error E conversation); [auto with calm|].
    apply calm_bind; auto with calm.
Qed.

Lemma POST_eq E body w :
  POST E body w =
  match form_payload body with
  | Some formData =>
      (Ok (match lead_insert_error E (user_leads w) (lead_of_form formData) with
           | Some _ => mkResponse 500 (JsonError (str "Failed to save lead"))
           | None => mkResponse 200 (JsonText (thanks (fullName formData)))
           end),
       after_lead E w (lead_of_form formData))
  | None =>
      retrieve_and_answer E (default [] (messages body)) (lastUserText body) (index_once w).2
  end.
Proof.
  unfold POST. destruct (form_payload body) as [formData|].
  - unfold bind, insert_lead, after_lead.
    by destruct (lead_insert_error E (user_leads w) (lead_of_form formData)).
  - unfold bind at 1, index_once. by destruct (indexingStarted w).
Qed.

Lemma starts_app evs1 evs2 : starts (evs1 ++ evs2) = (starts evs1 + starts evs2)%nat.
Proof. unfold starts. by rewrite List.filter_app, length_app. Qed.

(** One request: the flag never goes back to false, and a run is launched
    exactly when the flag goes from false to true. *)
Lemma POST_flag E body w :
  (indexingStarted w = true → indexingStarted (POST E body w).2 = true) ∧
  starts (trace (POST E body w).2) =
  (starts (trace w) +
   (if negb (indexingStarted w) && indexingStarted (POST E body w).2 then 1 else 0))%nat.
Proof.
  rewrite POST_eq. destruct (form_payload body) as [formData|].
  - simpl. rewrite starts_app. unfold starts. simpl.
    split; [done|]. destruct (indexingStarted w); simpl; lia.
  - destruct (calm_retrieve_and_answer E (default [] (messages body)) (lastUserText body)
                (index_once w).2) as (Hf & evs & Ht & Hs).
    rewrite Hf, Ht, starts_app. unfold starts at 2. rewrite Hs.
    unfold index_once. destruct (indexingStarted w) eqn:Hflag; simpl.
    + split; [done | lia].
    + split; [done|]. rewrite starts_app. unfold starts. simpl. lia.
Qed.

Lemma serve_app E bodies more w :
  serve E (bodies ++ more) w = serve E more (serve E bodies w).
Proof. unfold serve. apply fold_left_app. Qed.

Lemma serve_flag E bodies :
  ∀ w,
    (indexingStarted w = true → indexingStarted (serve E bodies w) = true) ∧
    starts (trace (serve E bodies w)) =
    (starts (trace w) +
     (if negb (indexingStarted w) && indexingStarted (serve E bodies w) then 1 else 0))%nat.
Proof.
  induction bodies as [|body bodies IH]; intros w.
  - simpl. split; [done|]. destruct (indexingStarted w); simpl; lia.
  - change (serve E (body :: bodies) w) with (serve E bodies (POST E body w).2).
    destruct (POST_flag E body w) as [Hmono Hcount].
    destruct (IH (POST E body w).2) as [Hmono' Hcount'].
    split; [auto|]. rewrite Hcount', Hcount.
    destruct (indexingStarted w); simpl.
    + rewrite (Hmono eq_refl). simpl. lia.
    + destruct (indexingStarted (POST E body w).2); simpl; [|lia].
      rewrite (Hmono' eq_refl). lia.
Qed.

(** C8.  The flag is false when the process starts; once true it stays
    true through every later request; the crawl-and-index run has been
    launched once if the flag is true and never if it is false, so at most
    once whatever the requests; the run itself neither writes the flag nor
    launches a run. *)
Theorem indexing_started_at_most_once E bodies :
  indexingStarted initial_world = false ∧
  starts (trace (serve E bodies initial_world)) =
    (if indexingStarted (serve E bodies initial_world) then 1 else 0)%nat ∧
  (starts (trace (serve E bodies initial_world)) ≤ 1)%nat ∧
  (∀ more, indexingStarted (serve E bodies initial_world) = true →
     indexingStarted (serve E (bodies ++ more) initial_world) = true ∧
     starts (trace (serve E (bodies ++ more) initial_world)) = 1%nat) ∧
  calm (ensurePagesIndexed E site).
Proof.
  destruct (serve_flag E bodies initial_world) as [_ Hcount]. simpl in Hcount.
  split; [done|]. split; [done|].
  split; [rewrite Hcount; destruct (indexingStarted _); lia|].
  split; [|apply calm_ensurePagesIndexed].
  intros more Hflag. rewrite serve_app.
  destruct (serve_flag E more (serve E bodies initial_world)) as [Hmono Hcount'].
  split; [auto|]. rewrite Hcount', Hcount, Hflag. simpl. lia.
Qed.

Lemma indexing_started_at_most_once_witness :
  indexingStarted (serve cyclic_site [ask (str "hello")] initial_world) = true ∧
  indexingStarted
    (serve cyclic_site ([ask (str "hello")] ++ [ask (str "prices"); ask (str "hours")])
       initial_world) = true ∧
  starts (trace
    (serve cyclic_site ([ask (str "hello")] ++ [ask (str "prices"); ask (str "hours")])
       initial_world)) = 1%nat.
Proof.
  assert (Hflag : indexingStarted (serve cyclic_site [ask (str "hello")] initial_world) = true)
    by reflexivity.
  split; [exact Hflag|].
  destruct (indexing_started_at_most_once cyclic_site [ask (str "hello")])
    as (_ & _ & _ & Hmore & _).
  exact (Hmore [ask (str "prices"); ask (str "hours")] Hflag).
Defined.

(** C10.  A request whose last user message carries a form answers right
    after the lead insert, with status 500 when the store reports an error
    and 200 otherwise: its only effect is that insert, so no retrieval, no
    call of the language model, no launch of the indexing run, and the flag
    is as before. *)
Theorem form_submission_leaves_indexing E body formData w :
  form_payload body = Some formData →
  POST E body w =
    (Ok (match lead_insert_error E (user_leads w) (lead_of_form formData) with
         | Some _ => mkResponse 500 (JsonError (str "Failed to save lead"))
         | None => mkResponse 200 (JsonText (thanks (fullName formData)))
         end),
     after_lead E w (lead_of_form formData)) ∧
  indexingStarted (POST E body w).2 = indexingStarted w ∧
  trace (POST E body w).2 = trace w ++ [EvInsertLead (lead_of_form formData)] ∧
  starts (trace (POST E body w).2) = starts (trace w) ∧
  documents (POST E body w).2 = documents w ∧
  embed_calls (POST E body w).2 = embed_calls w.
Proof.
  intros Hform. rewrite POST_eq, Hform. simpl.
  do 3 (split; [done|]). split; [|done].
  rewrite starts_app. unfold starts. simpl. lia.
Qed.

Lemma form_submission_leaves_indexing_witness :
  form_payload jane_body = Some jane_data ∧
  indexingStarted (POST cyclic_site jane_body initial_world).2 = false ∧
  trace (POST cyclic_site jane_body initial_world).2 = [EvInsertLead (lead_of_form jane_data)].
Proof.
  assert (Hform : form_payload jane_body = Some jane_data) by reflexivity.
  split; [exact Hform|].
  destruct (form_submission_leaves_indexing cyclic_site jane_body jane_data initial_world Hform)
    as (_ & Hflag & Htrace & _).
  split; [exact Hflag | exact Htrace].
Defined.

(** The sibling path validates: [collectForm] stores nothing when the name
    or the email is absent or the email check fails. *)
Lemma collectForm_rejects E z_email input w :
  in_fullName input = None ∨ in_email input = None ∨
  (∃ email, in_email input = Some email ∧ z_email email = false) →
  collectForm E z_email input w = (Throw invalid_input, w).
Proof.
  unfold collectForm. intros [Hn | [He | (email & He & Hz)]].
  - by rewrite Hn.
  - rewrite He. by destruct (in_fullName input).
  - rewrite He, Hz. by destruct (in_fullName input).
Qed.

(** C1, the failing input.  The client's own pattern rejects
    "not-an-email" and accepts "jane@example.com", and the component shows
    the error under the field; [submitForm] sends the form all the same, and
    [POST] asks the store to insert the row, whatever the store: where the
    store accepts, the row with the malformed email is in [user_leads] and
    the answer is 200. *)
Theorem lead_inserted_without_validation :
  regex_test emailRegex (str "not-an-email") = false ∧
  regex_test emailRegex (str "jane@example.com") = true ∧
  emailError (str "not-an-email") = str "Please enter a valid email address" ∧
  submitForm jane_form = Some jane_message ∧
  form_payload jane_body = Some jane_data ∧
  (∀ E, trace (POST E jane_body initial_world).2 = [EvInsertLead (lead_of_form jane_data)]) ∧
  POST cyclic_site jane_body initial_world =
    (Ok (mkResponse 200 (JsonText (thanks (str "Jane Doe")))),
     mkWorld [] [lead_of_form jane_data] false 0 [EvInsertLead (lead_of_form jane_data)]) ∧
  lead_email (lead_of_form jane_data) = str "not-an-email".
Proof.
  do 5 (split; [by vm_compute|]).
  split; [|split; [by vm_compute | done]].
  intros E. by rewrite POST_eq.
Qed.

(** * Further properties *)

(** ** Chunker and scraper *)

Lemma trimStart_length s : (length (trimStart s) ≤ length s)%nat.
Proof.
  induction s as [|c s IH]; simpl; [done|].
  destruct (is_ws c); simpl; lia.
Qed.

Lemma trim_length s : jslen (trim s) ≤ jslen s.
Proof.
  unfold trim, trimEnd, jslen. rewrite length_rev.
  pose proof (trimStart_length (rev (trimStart s))) as H1.
  pose proof (trimStart_length s) as H2.
  rewrite length_rev in H1. lia.
Qed.

Lemma window_length text size overlap k :
  overlap < size → 0 ≤ size →
  jslen (window text size overlap k) ≤ size ∧
  jslen (window text size overlap k) ≤ jslen text.
Proof.
  intros Hstep Hsize. unfold window, jslen.
  rewrite slice_window by nia.
  rewrite length_take, length_drop. lia.
Qed.

Lemma chunks_of_windows_bounds text size overlap p :
  overlap < size → 0 ≤ size →
  p ∈ List.filter long_enough (map trim (windows text size overlap)) →
  50 < jslen p ∧ jslen p ≤ size ∧ jslen p ≤ jslen text.
Proof.
  intros Hstep Hsize Hp.
  apply list_elem_of_In, filter_In in Hp as [Hin Hlong].
  apply in_map_iff in Hin as (w & <- & Hw).
  unfold windows in Hw. apply in_map_iff in Hw as (k & <- & _).
  destruct (window_length text size overlap k Hstep Hsize) as [H1 H2].
  pose proof (trim_length (window text size overlap k)).
  apply Z.ltb_lt in Hlong. lia.
Qed.

(** X1.  For integers [size] and [overlap] with [overlap < size] and
    [0 ≤ size], every chunk has more than 50 and at most [size] code units
    and is no longer than the text; there are at most as many chunks as
    window positions; and a size or a text of at most 50 code units gives no
    chunk at all. *)
Theorem chunkText_bounds text size overlap :
  overlap < size → 0 ≤ size →
  ∃ chunks,
    chunkText text size overlap = Some chunks ∧
    (∀ p, p ∈ chunks → 50 < jslen p ∧ jslen p ≤ size ∧ jslen p ≤ jslen text) ∧
    (length chunks ≤ num_windows (jslen text) (size - overlap))%nat ∧
    (size ≤ 50 ∨ jslen text ≤ 50 → chunks = []).
Proof.
  intros Hstep Hsize.
  exists (List.filter long_enough (map trim (windows text size overlap))).
  split; [by apply chunkText_windows|].
  assert (Hb : ∀ p, p ∈ List.filter long_enough (map trim (windows text size overlap)) →
                 50 < jslen p ∧ jslen p ≤ size ∧ jslen p ≤ jslen text)
    by (intros p; by apply chunks_of_windows_bounds).
  split; [done|]. split.
  - etrans; [apply filter_length_le|].
    unfold windows. by rewrite !length_map, length_seq.
  - intros Hsmall.
    destruct (List.filter long_enough (map trim (windows text size overlap))) as [|p ps]; [done|].
    destruct (Hb p) as (H1 & H2 & H3); [by left|]. lia.
Qed.

Lemma chunkText_bounds_witness :
  10 < 60 ∧ 0 ≤ 60 ∧
  chunkText sample_text 60 10 = Some [take 60 sample_text] ∧
  (∀ p, p ∈ [take 60 sample_text] →
     50 < jslen p ∧ jslen p ≤ 60 ∧ jslen p ≤ jslen sample_text).
Proof.
  split; [lia|]. split; [lia|].
  assert (Hc : chunkText sample_text 60 10 = Some [take 60 sample_text]) by (by vm_compute).
  split; [exact Hc|].
  destruct (chunkText_bounds sample_text 60 10 ltac:(lia) ltac:(lia))
    as (chunks & Hrun & Hbounds & _).
  rewrite Hc in Hrun. injection Hrun as <-. exact Hbounds.
Defined.

(** X2.  What [scrapePage] returns is [chunkText(text)], with the defaults
    800 and 200, of the text extracted from the page, which therefore
    opened: chunks that are trimmed and have between 51 and 800 code units.
    For a page that fails to open it returns nothing. *)
Theorem scrapePage_returns_chunks E u w chunks :
  (scrapePage E u w).1 = Ok chunks →
  ∃ text,
    page_text E u = Got text ∧
    chunkText text 800 200 = Some chunks ∧
    ∀ p, p ∈ chunks → 50 < jslen p ∧ jslen p ≤ 800 ∧ trim p = p.
Proof.
  rewrite scrapePage_eq. destruct (page_text E u) as [text|e] eqn:Hpage; simpl; [|done].
  intros [= <-]. exists text. split; [done|].
  split; [by rewrite chunkText_windows by lia|].
  intros p Hp. unfold default_chunks in Hp.
  destruct (chunks_of_windows_bounds text 800 200 p ltac:(lia) ltac:(lia) Hp) as (H1 & H2 & _).
  do 2 (split; [done|]).
  apply list_elem_of_In, filter_In in Hp as [Hin _].
  apply in_map_iff in Hin as (w' & <- & _). apply trim_idem.
Qed.

Lemma scrapePage_returns_chunks_witness :
  (scrapePage cyclic_site (str "/") initial_world).1 = Ok [sample_text] ∧
  ∃ text,
    page_text cyclic_site (str "/") = Got text ∧
    chunkText text 800 200 = Some [sample_text] ∧
    ∀ p, p ∈ [sample_text] → 50 < jslen p ∧ jslen p ≤ 800 ∧ trim p = p.
Proof.
  assert (Hrun : (scrapePage cyclic_site (str "/") initial_world).1 = Ok [sample_text])
    by (by vm_compute).
  split; [exact Hrun|].
  exact (scrapePage_returns_chunks cyclic_site (str "/") initial_world [sample_text] Hrun).
Defined.

(** ** Crawler *)

Lemma crawl_links_elem (f : url → CrawlState → list url * CrawlState) links :
  ∀ newLinks st u,
    u ∈ (crawl_links f links newLinks st).1 →
    u ∈ newLinks ∨ ∃ link st', link ∈ links ∧ u ∈ (f link st').1.
Proof.
  induction links as [|link rest IH]; intros newLinks st u Hu; simpl in Hu; [by left|].
  destruct (f link st) as [found st'] eqn:Hf.
  destruct (IH _ _ _ Hu) as [[Hacc|Hfound]%elem_of_app | (l & s & Hl & Hin)].
  - by left.
  - right. exists link, st. rewrite Hf. split; [by left | done].
  - right. exists l, s. split; [by right | done].
Qed.

Lemma crawl_links_prefix (f : url → CrawlState → list url * CrawlState) links :
  ∀ newLinks st, ∃ rest, (crawl_links f links newLinks st).1 = newLinks ++ rest.
Proof.
  induction links as [|link rest IH]; intros newLinks st; simpl.
  - exists []. by rewrite app_nil_r.
  - destruct (f link st) as [found st'].
    destruct (IH (newLinks ++ found) st') as [more Hmore].
    exists (found ++ more). by rewrite Hmore, app_assoc.
Qed.

Lemma reach_mono E n u x : reach E n u x → reach E (S n) u x.
Proof.
  induction 1 as [m a | m a links v b Hpage Hv _ IH]; [constructor|].
  by apply (reach_link E (S m) a links v b).
Qed.

Lemma crawl_reach E levels :
  ∀ baseUrl st u,
    u ∈ (crawl E levels baseUrl st).1 →
    levels ≠ 0%nat ∧ reach E (pred levels) baseUrl u ∧ ∃ links, page_links E u = Got links.
Proof.
  induction levels as [|levels IH]; intros baseUrl st u Hu; simpl in Hu.
  - by apply elem_of_nil in Hu.
  - split; [done|]. simpl.
    destruct (decide (baseUrl ∈ visited st)) as [Hin|Hnin]; [by apply elem_of_nil in Hu|].
    destruct (page_links E baseUrl) as [links|e] eqn:Hpage; [|by apply elem_of_nil in Hu].
    apply crawl_links_elem in Hu as [Hu | (link & st' & Hlink & Hu)].
    + apply list_elem_of_singleton in Hu as ->. split; [constructor | eauto].
    + destruct (IH link st' u Hu) as (Hne & Hreach & Hopen). split; [|done].
      destruct levels as [|n]; [done|]. simpl in Hreach.
      by apply (reach_link E n baseUrl links link u).
Qed.

(** X3.  Every URL the crawl returns is reached from the seed by fewer
    than [depth] links, each found on a page that opened, and its own page
    opened: a page that fails to open, or that lies deeper, is not
    returned. *)
Theorem crawl_returns_reachable_opened E seedUrl depth st u :
  u ∈ (crawlSiteRecursive E seedUrl depth st).1 →
  0 < depth ∧
  reach E (Z.to_nat (depth - 1)) seedUrl u ∧
  ∃ links, page_links E u = Got links.
Proof.
  unfold crawlSiteRecursive. intros Hu.
  destruct (crawl_reach E (Z.to_nat depth) seedUrl st u Hu) as (Hne & Hreach & Hopen).
  split; [lia|]. split; [|done].
  by replace (Z.to_nat (depth - 1)) with (pred (Z.to_nat depth)) by lia.
Qed.

Lemma crawl_returns_reachable_opened_witness :
  str "/about" ∈ (crawlSiteRecursive cyclic_site (str "/") 2 new_crawl).1 ∧
  reach cyclic_site (Z.to_nat (2 - 1)) (str "/") (str "/about") ∧
  ∃ links, page_links cyclic_site (str "/about") = Got links.
Proof.
  assert (Hin : str "/about" ∈ (crawlSiteRecursive cyclic_site (str "/") 2 new_crawl).1).
  { assert (Hr : (crawlSiteRecursive cyclic_site (str "/") 2 new_crawl).1
                 = [str "/"; str "/about"]) by (by vm_compute).
    rewrite Hr. apply elem_of_cons. right. apply elem_of_cons. by left. }
  split; [exact Hin|].
  exact (proj2 (crawl_returns_reachable_opened cyclic_site (str "/") 2 new_crawl _ Hin)).
Defined.

(** X4.  A crawl that returns any URL returns the seed first: the depth
    was positive, the seed had not been visited and its page opened; the
    seed is visited afterwards, and with depth 1 it is the only URL
    returned. *)
Theorem crawl_result_starts_with_seed E seedUrl depth st :
  (crawlSiteRecursive E seedUrl depth st).1 ≠ [] →
  0 < depth ∧ (seedUrl ∉ visited st) ∧
  (∃ links, page_links E seedUrl = Got links) ∧
  (∃ rest, (crawlSiteRecursive E seedUrl depth st).1 = seedUrl :: rest ∧
           (depth = 1 → rest = [])).
Proof.
  rewrite crawlSiteRecursive_unfold.
  destruct (Z.leb_spec depth 0) as [|Hdepth]; [done|].
  destruct (decide (seedUrl ∈ visited st)) as [Hin|Hfresh];
    [by rewrite bool_decide_true | rewrite bool_decide_false by done].
  simpl. destruct (page_links E seedUrl) as [links|e]; [|done].
  intros _. split; [done|]. split; [done|]. split; [by exists links|].
  destruct (crawl_links_prefix (λ link st', crawlSiteRecursive E link (depth - 1) st')
              links [seedUrl]
              (mkCrawlState ({[seedUrl]} ∪ visited st) (navigated st ++ [seedUrl])))
    as [rest Hrest].
  exists rest. split; [done|]. intros ->.
  assert (Hone : ∀ st1, (crawl_links (λ link st', crawlSiteRecursive E link (1 - 1) st')
                           links [seedUrl] st1).1 = [seedUrl]).
  { clear. induction links as [|link more IH]; intros st1; [done|]. simpl. apply IH. }
  rewrite Hone in Hrest. by destruct rest.
Qed.

Lemma crawl_result_starts_with_seed_witness :
  (crawlSiteRecursive cyclic_site (str "/") 2 new_crawl).1 ≠ [] ∧
  ∃ rest, (crawlSiteRecursive cyclic_site (str "/") 2 new_crawl).1 = str "/" :: rest.
Proof.
  assert (Hsome : (crawlSiteRecursive cyclic_site (str "/") 2 new_crawl).1 ≠ [])
    by (by vm_compute).
  split; [exact Hsome|].
  destruct (crawl_result_starts_with_seed cyclic_site (str "/") 2 new_crawl Hsome)
    as (_ & _ & _ & rest & Hrest & _).
  by exists rest.
Defined.

(** ** Embedder *)

Lemma embed_loop_budget E value :
  ∀ left delay w,
    0 ≤ delay →
    ∃ evs,
      trace (embed_loop E left value delay w).2 = trace w ++ evs ∧
      embed_calls (embed_loop E left value delay w).2 = (embed_calls w + embed_requests evs)%nat ∧
      (embed_requests evs ≤ left)%nat ∧
      0 ≤ slept evs ∧
      slept evs ≤ delay * (2 ^ Z.of_nat (embed_requests evs) - 1).
Proof.
  induction left as [|left IH]; intros delay w Hdelay.
  - exists []. unfold embed_requests. simpl. rewrite app_nil_r, Nat.add_0_r.
    do 3 (split; [done|]). lia.
  - rewrite embed_loop_S.
    assert (Hone : ∀ o : Outcome vector, ∃ evs,
              trace (o, after_call w value).2 = trace w ++ evs ∧
              embed_calls (o, after_call w value).2 = (embed_calls w + embed_requests evs)%nat ∧
              (embed_requests evs ≤ S left)%nat ∧
              0 ≤ slept evs ∧
              slept evs ≤ delay * (2 ^ Z.of_nat (embed_requests evs) - 1)).
    { intros o. exists [EvEmbed value]. unfold embed_requests. simpl.
      split; [done|]. split; [lia|]. split; [lia|]. lia. }
    destruct (embed_api E (embed_calls w) value) as [v|e]; [apply Hone|].
    destruct (rate_limited e); [|apply Hone].
    destruct (IH (delay * 2) (after_sleep (after_call w value) delay) ltac:(lia))
      as (evs & Ht & Hc & Hn & Hs0 & Hs).
    exists (EvEmbed value :: EvSleep delay :: evs).
    rewrite Ht, Hc. simpl. rewrite <- !app_assoc. simpl.
    unfold embed_requests in *. simpl.
    set (r := length (List.filter _ evs)) in *.
    split; [done|]. split; [lia|]. split; [lia|]. split; [lia|].
    replace (Z.of_nat (S r)) with (Z.succ (Z.of_nat r)) by lia.
    rewrite Z.pow_succ_r by lia. lia.
Qed.

(** X5.  For an integer number of retries, [embedText] calls the model at
    most [retries] times, and sleeps, for a delay that is not negative, at
    most [delay * (2 ^ retries - 1)] milliseconds in all; with no retry
    allowed it fails at once with the max-retries error, without calling the
    model. *)
Theorem embedText_budget E value retries delay w :
  0 ≤ delay →
  (∃ evs,
     trace (embedText E value retries delay w).2 = trace w ++ evs ∧
     embed_calls (embedText E value retries delay w).2 = (embed_calls w + embed_requests evs)%nat ∧
     (embed_requests evs ≤ Z.to_nat retries)%nat ∧
     slept evs ≤ delay * (2 ^ Z.of_nat (Z.to_nat retries) - 1)) ∧
  (retries ≤ 0 → embedText E value retries delay w = (Throw max_retries_error, w)).
Proof.
  intros Hdelay. unfold embedText. split.
  - destruct (embed_loop_budget E value (Z.to_nat retries) delay w Hdelay)
      as (evs & Ht & Hc & Hn & Hs0 & Hs).
    exists evs. do 3 (split; [done|]).
    assert (2 ^ Z.of_nat (embed_requests evs) ≤ 2 ^ Z.of_nat (Z.to_nat retries))
      by (apply Z.pow_le_mono_r; lia).
    nia.
  - intros Hr. by replace (Z.to_nat retries) with 0%nat by lia.
Qed.

Lemma embedText_budget_witness :
  0 ≤ 2000 ∧
  ∃ evs,
    trace (embedText flaky_model (str "hello") 5 2000 initial_world).2
      = trace initial_world ++ evs ∧
    embed_calls (embedText flaky_model (str "hello") 5 2000 initial_world).2
      = (embed_calls initial_world + embed_requests evs)%nat ∧
    (embed_requests evs ≤ Z.to_nat 5)%nat ∧
    slept evs ≤ 2000 * (2 ^ Z.of_nat (Z.to_nat 5) - 1).
Proof.
  split; [lia|].
  exact (proj1 (embedText_budget flaky_model (str "hello") 5 2000 initial_world ltac:(lia))).
Defined.

(** X21.  What one failed attempt of [embedText] leads to, with an integer
    number of retries of at least one: if the thrown value is an object with
    a [statusCode] property whose status code is 429 or whose message has
    "exhausted" somewhere in it, [embedText] sleeps for [delay] and goes on
    as a call with one retry less and twice the delay; any other value, also
    an error without that property whose message says "exhausted", is thrown
    on at once, after that one call and without a sleep. *)
Theorem embedText_first_failure E value retries delay w e :
  0 < retries →
  embed_api E (embed_calls w) value = Failed e →
  (retried e →
     embedText E value retries delay w =
     embedText E value (retries - 1) (delay * 2) (after_sleep (after_call w value) delay)) ∧
  (¬ retried e →
     embedText E value retries delay w = (Throw e, after_call w value)).
Proof.
  intros Hretries Hfail. unfold embedText.
  replace (Z.to_nat retries) with (S (Z.to_nat (retries - 1))) by lia.
  rewrite embed_loop_S, Hfail. split.
  - intros Hre%rate_limited_retried. by rewrite Hre.
  - intros Hnot%not_retried_rate_limited. by rewrite Hnot.
Qed.

Lemma embedText_first_failure_witness :
  0 < 1 ∧
  embed_api quota_without_status (embed_calls initial_world) (str "hello")
    = Failed quota_error ∧
  ¬ retried quota_error ∧
  embedText quota_without_status (str "hello") 1 2000 initial_world =
    (Throw quota_error, after_call initial_world (str "hello")).
Proof.
  assert (Hnot : ¬ retried quota_error) by (by intros (sc & msg & [=] & _)).
  split; [lia|]. split; [reflexivity|]. split; [exact Hnot|].
  exact (proj2 (embedText_first_failure quota_without_status (str "hello") 1 2000
                  initial_world quota_error ltac:(lia) eq_refl) Hnot).
Defined.

(** ** Indexer *)

Lemma index_chunks_events E u :
  ∀ chunks i w, ∃ evs,
    trace (index_chunks E u i chunks w).2 = trace w ++ evs ∧
    forallb index_event evs = true.
Proof.
  induction chunks as [|chunk rest IH]; intros i w.
  - exists []. simpl. by rewrite app_nil_r.
  - simpl. unfold bind at 1. unfold embedText.
    destruct (embed_loop_frame E chunk (Z.to_nat 5) 2000 w)
      as (_ & _ & _ & _ & evs & Ht & Hev).
    assert (Hev' : forallb index_event evs = true).
    { clear Ht. induction evs as [|ev evs IHe]; [done|].
      simpl in *. destruct ev; try done; by apply IHe. }
    destruct (embed_loop E (Z.to_nat 5) chunk 2000 w) as [[v|e|] w1]; simpl in *; eauto.
    change (bind (insert_document E (mkDocRow u i chunk v))
                 (λ _, index_chunks E u (S i) rest) w1)
      with (index_chunks E u (S i) rest (insert_document E (mkDocRow u i chunk v) w1).2).
    assert (Htr1 : trace (insert_document E (mkDocRow u i chunk v) w1).2
                   = trace w1 ++ [EvInsertDoc (mkDocRow u i chunk v)]) by done.
    set (w2 := (insert_document E (mkDocRow u i chunk v) w1).2) in *.
    destruct (IH (S i) w2) as (evs' & Ht' & Hev'').
    exists (evs ++ [EvInsertDoc (mkDocRow u i chunk v)] ++ evs').
    split.
    + rewrite Ht', Htr1, Ht. by rewrite <- !app_assoc.
    + rewrite forallb_app, Hev'. simpl. done.
Qed.

Lemma counted_index_events evs : forallb index_event evs = true → counted evs = [].
Proof.
  induction evs as [|ev evs IH]; [done|].
  unfold counted in *. destruct ev; simpl; try done; apply IH.
Qed.

Lemma counted_app evs1 evs2 : counted (evs1 ++ evs2) = counted evs1 ++ counted evs2.
Proof. unfold counted. apply omap_app. Qed.

(** A call counts once, first of all. *)
Lemma ensurePageIndexed_counts_once E u w :
  ∃ evs, trace (ensurePageIndexed E u w).2 = trace w ++ EvCount u :: evs ∧ counted evs = [].
Proof.
  rewrite ensurePageIndexed_eq.
  destruct (counted_as_indexed E w u); [by exists []|].
  destruct (page_text E u) as [text|e].
  - destruct (index_chunks_events E u (default_chunks text) 0
               (after_event (after_event w (EvCount u)) (EvScrapeGoto u))) as (evs & Ht & Hev).
    exists (EvScrapeGoto u :: evs). split.
    + rewrite Ht. simpl. by rewrite <- !app_assoc.
    + unfold counted. simpl. by apply counted_index_events.
  - exists [EvScrapeGoto u]. simpl. by rewrite <- app_assoc.
Qed.

Lemma ensurePageIndexed_ends E u w : (ensurePageIndexed E u w).1 ≠ Hang.
Proof.
  by destruct (ensurePageIndexed_stored E u w) as (rows & _ & _ & _ & _ & _ & _ & Hend).
Qed.

(** The loop over the pages goes on after a page, whatever its outcome. *)
Lemma index_pages_cons E u rest w :
  index_pages E (u :: rest) w = index_pages E rest (ensurePageIndexed E u w).2.
Proof.
  simpl. unfold bind, try_catch. pose proof (ensurePageIndexed_ends E u w) as Hend.
  by destruct (ensurePageIndexed E u w) as [[[]|e|] w1].
Qed.

Lemma index_pages_attempts E urls :
  ∀ w, (index_pages E urls w).1 = Ok tt ∧
       ∃ evs, trace (index_pages E urls w).2 = trace w ++ evs ∧ counted evs = urls.
Proof.
  induction urls as [|u rest IH]; intros w.
  - split; [done|]. exists []. by rewrite app_nil_r.
  - rewrite index_pages_cons.
    destruct (IH (ensurePageIndexed E u w).2) as (Hok & evs & Ht & Hc).
    split; [done|].
    destruct (ensurePageIndexed_counts_once E u w) as (evs1 & Ht1 & Hc1).
    exists ((EvCount u :: evs1) ++ evs). split.
    + by rewrite Ht, Ht1, <- app_assoc.
    + rewrite counted_app. change (counted (EvCount u :: evs1)) with (u :: counted evs1).
      by rewrite Hc1, Hc.
Qed.

(** X6.  The loop of [ensurePagesIndexed] over the URLs never throws: what
    [ensurePageIndexed] throws for a page is caught, and the loop goes on
    with the next page from the state in which that page left the store;
    the count query is sent for every URL of the list, once each and in the
    order of the list. *)
Theorem index_pages_isolates_failures E urls w :
  (index_pages E urls w).1 = Ok tt ∧
  (∃ evs, trace (index_pages E urls w).2 = trace w ++ evs ∧ counted evs = urls) ∧
  (∀ u rest, urls = u :: rest →
     index_pages E urls w = index_pages E rest (ensurePageIndexed E u w).2).
Proof.
  destruct (index_pages_attempts E urls w) as [Hok Hcounted].
  do 2 (split; [done|]). intros u rest ->. apply index_pages_cons.
Qed.

Lemma index_pages_isolates_failures_witness :
  (ensurePageIndexed tiny_site (str "/down") initial_world).1
    = Throw (PlainError (str "Navigation timeout")) ∧
  (index_pages tiny_site [str "/down"; str "/"] initial_world).1 = Ok tt ∧
  counted (trace (index_pages tiny_site [str "/down"; str "/"] initial_world).2)
    = [str "/down"; str "/"].
Proof.
  split; [reflexivity|].
  destruct (index_pages_isolates_failures tiny_site [str "/down"; str "/"] initial_world)
    as (Hok & (evs & Ht & Hc) & _).
  split; [exact Hok|]. rewrite Ht. exact Hc.
Defined.

Lemma count_rows_zero u rows row :
  count_rows u rows = 0%nat → row ∈ rows → doc_url row ≠ u.
Proof.
  unfold count_rows. intros Hz Hin Hu.
  assert (Hf : In row (List.filter (λ r, url_eqb (doc_url r) u) rows)).
  { apply filter_In. split; [by apply list_elem_of_In|].
    unfold url_eqb. by rewrite bool_decide_true. }
  destruct (List.filter _ rows); [done | simpl in Hz; lia].
Qed.

Lemma ensurePageIndexed_keys E u w :
  (∀ n v, count_fails E n v = false) →
  NoDup (keys (documents w)) → NoDup (keys (documents (ensurePageIndexed E u w).2)).
Proof.
  intros Hanswers Hnd.
  destruct (ensurePageIndexed_stored E u w)
    as (rows & _ & (kept & Hdoc & Hsub & _) & Hidx & Hurl & _ & Hnone & _).
  destruct (counted_as_indexed E w u) eqn:Hcount.
  - rewrite (Hnone eq_refl) in Hsub. apply sublist_nil_r in Hsub as ->.
    by rewrite Hdoc, app_nil_r.
  - assert (Hz : count_rows u (documents w) = 0%nat).
    { unfold counted_as_indexed in Hcount. rewrite Hanswers in Hcount. simpl in Hcount.
      apply Nat.ltb_ge in Hcount. lia. }
    rewrite Hdoc. unfold keys. rewrite map_app. apply NoDup_app. split; [done|]. split.
    + intros key Hold Hnew.
      apply list_elem_of_fmap in Hold as (old & -> & Hold).
      apply list_elem_of_fmap in Hnew as (new & Heq & Hnew).
      rewrite Forall_forall in Hurl.
      specialize (Hurl new (elem_of_sublist _ _ _ Hnew Hsub)).
      apply (count_rows_zero u _ old Hz Hold). injection Heq as -> _. done.
    + apply (sublist_NoDup _ (map (λ row, (doc_url row, chunk_index row)) rows));
        [|by apply (fmap_sublist (λ row : DocRow, (doc_url row, chunk_index row)))].
      apply (NoDup_fmap_1 snd). rewrite <- list_fmap_compose.
      change (snd ∘ _) with chunk_index. change (chunk_index <$> rows) with (map chunk_index rows).
      rewrite Hidx. apply NoDup_seq.
Qed.

(** X7.  On a store whose count queries answer, indexing keeps the pairs
    (url, chunk_index) of the [documents] table pairwise different: if they
    are before a pass over a page, or before the loop over a list of pages,
    they are after it, also when embeddings fail or inserts are rejected on
    the way. *)
Theorem indexing_keeps_keys_unique E u urls w :
  (∀ n v, count_fails E n v = false) →
  NoDup (keys (documents w)) →
  NoDup (keys (documents (ensurePageIndexed E u w).2)) ∧
  NoDup (keys (documents (index_pages E urls w).2)).
Proof.
  intros Hanswers Hnd. split; [by apply ensurePageIndexed_keys|].
  revert w Hnd. induction urls as [|v rest IH]; intros w Hnd; [done|].
  rewrite index_pages_cons. by apply IH, ensurePageIndexed_keys.
Qed.

Lemma indexing_keeps_keys_unique_witness :
  (∀ n v, count_fails cyclic_site n v = false) ∧
  NoDup (keys (documents initial_world)) ∧
  NoDup (keys (documents
    (index_pages cyclic_site [str "/"; str "/about"; str "/"] initial_world).2)) ∧
  length (documents
    (index_pages cyclic_site [str "/"; str "/about"; str "/"] initial_world).2) = 2%nat.
Proof.
  assert (Hanswers : ∀ n v, count_fails cyclic_site n v = false) by reflexivity.
  assert (Hnd : NoDup (keys (documents initial_world))) by apply NoDup_nil_2.
  split; [exact Hanswers|]. split; [exact Hnd|]. split; [|reflexivity].
  exact (proj2 (indexing_keeps_keys_unique cyclic_site (str "/")
                  [str "/"; str "/about"; str "/"] initial_world Hanswers Hnd)).
Defined.

Lemma default_chunks_short text : jslen text ≤ 50 → default_chunks text = [].
Proof.
  intros Hshort. unfold default_chunks.
  destruct (List.filter long_enough (map trim (windows text 800 200))) as [|p ps] eqn:Hc; [done|].
  destruct (chunks_of_windows_bounds text 800 200 p ltac:(lia) ltac:(lia)) as (H1 & _ & H3).
  - rewrite Hc. by left.
  - lia.
Qed.

(** X8.  A page that is not indexed and either fails to open or has a text
    of at most 50 code units leaves the store as it is, without any call of
    the model: the failure is thrown on, the short page ends normally; the
    page still counts as not indexed, so the next call navigates to it
    again. *)
Theorem ensurePageIndexed_nothing_to_store E u w :
  count_rows u (documents w) = 0%nat →
  (∀ e, page_text E u = Failed e →
     ensurePageIndexed E u w =
     (Throw e, after_event (after_event w (EvCount u)) (EvScrapeGoto u))) ∧
  (∀ text, page_text E u = Got text → jslen text ≤ 50 →
     ensurePageIndexed E u w =
     (Ok tt, after_event (after_event w (EvCount u)) (EvScrapeGoto u))) ∧
  count_rows u (documents (after_event (after_event w (EvCount u)) (EvScrapeGoto u))) = 0%nat.
Proof.
  intros Hz. rewrite ensurePageIndexed_eq. unfold counted_as_indexed.
  rewrite Hz, andb_false_r. simpl.
  split; [by intros e ->|]. split; [|done].
  intros text -> Hshort. by rewrite default_chunks_short.
Qed.

Lemma ensurePageIndexed_nothing_to_store_witness :
  count_rows (str "/") (documents initial_world) = 0%nat ∧
  ensurePageIndexed tiny_site (str "/") initial_world =
    (Ok tt, after_event (after_event initial_world (EvCount (str "/"))) (EvScrapeGoto (str "/"))) ∧
  ensurePageIndexed tiny_site (str "/down") initial_world =
    (Throw (PlainError (str "Navigation timeout")),
     after_event (after_event initial_world (EvCount (str "/down"))) (EvScrapeGoto (str "/down"))).
Proof.
  assert (Hz : ∀ u, count_rows u (documents initial_world) = 0%nat) by reflexivity.
  split; [exact (Hz (str "/"))|]. split.
  - destruct (ensurePageIndexed_nothing_to_store tiny_site (str "/") initial_world (Hz _))
      as (_ & Hshort & _).
    apply (Hshort (str "Coming soon")); [reflexivity | by vm_compute].
  - destruct (ensurePageIndexed_nothing_to_store tiny_site (str "/down") initial_world (Hz _))
      as (Hfail & _).
    by apply Hfail.
Defined.

Lemma slept_app evs1 evs2 : slept (evs1 ++ evs2) = slept evs1 + slept evs2.
Proof.
  induction evs1 as [|ev evs1 IH]; [done|]. simpl. rewrite IH. destruct ev; lia.
Qed.

Lemma index_chunks_answered E u (answer : nat → jsstring → vector) :
  (∀ n value, embed_api E n value = Got (answer n value)) →
  ∀ chunks i w,
    (index_chunks E u i chunks w).1 = Ok tt ∧
    embed_calls (index_chunks E u i chunks w).2 = (embed_calls w + length chunks)%nat ∧
    (∃ evs, trace (index_chunks E u i chunks w).2 = trace w ++ evs ∧ slept evs = 0 ∧
            inserted evs = imap (λ j chunk, mkDocRow u (i + j) chunk
                                              (answer (embed_calls w + j)%nat chunk)) chunks) ∧
    ((∀ n row, insert_rejected E n row = false) →
     documents (index_chunks E u i chunks w).2 =
       documents w ++ imap (λ j chunk, mkDocRow u (i + j) chunk
                                         (answer (embed_calls w + j)%nat chunk)) chunks).
Proof.
  intros Hans. induction chunks as [|chunk rest IH]; intros i w.
  - simpl. rewrite app_nil_r, Nat.add_0_r. do 2 (split; [done|]).
    split; [|done]. exists []. by rewrite app_nil_r.
  - set (row := mkDocRow u i chunk (answer (embed_calls w) chunk)).
    assert (Hstep : index_chunks E u i (chunk :: rest) w =
              index_chunks E u (S i) rest (insert_document E row (after_call w chunk)).2).
    { simpl. unfold bind at 1, embedText.
      change (Z.to_nat 5) with 5%nat. by rewrite embed_loop_S, Hans. }
    rewrite Hstep.
    assert (Htr2 : trace (insert_document E row (after_call w chunk)).2
                   = trace w ++ [EvEmbed chunk; EvInsertDoc row])
      by (simpl; by rewrite <- app_assoc).
    assert (Hcalls2 : embed_calls (insert_document E row (after_call w chunk)).2
                      = S (embed_calls w)) by done.
    assert (Hdoc2 : (∀ n row', insert_rejected E n row' = false) →
              documents (insert_document E row (after_call w chunk)).2 = documents w ++ [row]).
    { intros Hnone. simpl. by rewrite Hnone. }
    set (w2 := (insert_document E row (after_call w chunk)).2) in *.
    destruct (IH (S i) w2) as (Hok & Hcalls & (evs & Ht & Hs & Hins) & Hdoc).
    assert (Hrows : imap (λ j chunk', mkDocRow u (S i + j) chunk'
                                        (answer (embed_calls w2 + j)%nat chunk')) rest =
                    imap ((λ j chunk', mkDocRow u (i + j) chunk'
                                         (answer (embed_calls w + j)%nat chunk')) ∘ S) rest).
    { apply imap_ext. intros j chunk' _. unfold compose. rewrite Hcalls2.
      f_equal; [lia | f_equal; lia]. }
    split; [done|]. split; [rewrite Hcalls, Hcalls2; simpl; lia|]. split.
    + exists ([EvEmbed chunk; EvInsertDoc row] ++ evs).
      split; [by rewrite Ht, Htr2, <- app_assoc|].
      split; [by rewrite slept_app, Hs|].
      rewrite inserted_app, Hins, Hrows. simpl. unfold row. by rewrite !Nat.add_0_r.
    + intros Hnone. rewrite (Hdoc Hnone), (Hdoc2 Hnone), Hrows, <- app_assoc. simpl.
      unfold row. by rewrite !Nat.add_0_r.
Qed.

(** X9.  With a model that answers every call, a pass over a page that
    opens and is not counted as indexed ends normally and sends one insert
    request per chunk, in order, each with the embedding that the model
    returned for the text of that chunk; it calls the model once per chunk
    and never sleeps.  On a store that rejects no insert these rows are what
    the pass adds to the table. *)
Theorem ensurePageIndexed_pairs_text_and_embedding E u w text chunks
    (answer : nat → jsstring → vector) :
  (∀ n value, embed_api E n value = Got (answer n value)) →
  counted_as_indexed E w u = false →
  page_text E u = Got text →
  chunkText text 800 200 = Some chunks →
  (ensurePageIndexed E u w).1 = Ok tt ∧
  embed_calls (ensurePageIndexed E u w).2 = (embed_calls w + length chunks)%nat ∧
  (∃ evs, trace (ensurePageIndexed E u w).2 = trace w ++ evs ∧ slept evs = 0 ∧
          inserted evs = imap (λ j chunk, mkDocRow u j chunk
                                            (answer (embed_calls w + j)%nat chunk)) chunks) ∧
  ((∀ n row, insert_rejected E n row = false) →
   documents (ensurePageIndexed E u w).2 =
     documents w ++ imap (λ j chunk, mkDocRow u j chunk (answer (embed_calls w + j)%nat chunk))
                         chunks).
Proof.
  intros Hans Hz Hpage Hchunks.
  rewrite chunkText_windows in Hchunks by lia. injection Hchunks as <-.
  rewrite ensurePageIndexed_eq, Hz, Hpage.
  destruct (index_chunks_answered E u answer Hans (default_chunks text) 0
              (after_event (after_event w (EvCount u)) (EvScrapeGoto u)))
    as (Hok & Hcalls & (evs & Ht & Hs & Hins) & Hdoc).
  split; [done|]. split; [done|]. split; [|done].
  exists ([EvCount u; EvScrapeGoto u] ++ evs).
  split; [rewrite Ht; simpl; by rewrite <- !app_assoc|].
  split; [by rewrite slept_app, Hs|].
  by rewrite inserted_app, Hins.
Qed.

Lemma ensurePageIndexed_pairs_text_and_embedding_witness :
  (∀ n value, embed_api closed_store n value = Got ((λ _ _, [1; 2; 3]) n value)) ∧
  counted_as_indexed closed_store initial_world (str "/") = false ∧
  page_text closed_store (str "/") = Got sample_text ∧
  chunkText sample_text 800 200 = Some [sample_text] ∧
  inserted (trace (ensurePageIndexed closed_store (str "/") initial_world).2) =
    [mkDocRow (str "/") 0 sample_text [1; 2; 3]] ∧
  documents (ensurePageIndexed closed_store (str "/") initial_world).2 = [].
Proof.
  assert (Hans : ∀ n value, embed_api closed_store n value = Got ((λ _ _, [1; 2; 3]) n value))
    by reflexivity.
  assert (Hc : chunkText sample_text 800 200 = Some [sample_text]) by (by vm_compute).
  split; [exact Hans|]. split; [reflexivity|]. split; [reflexivity|]. split; [exact Hc|].
  destruct (ensurePageIndexed_pairs_text_and_embedding closed_store (str "/") initial_world
              sample_text [sample_text] (λ _ _, [1; 2; 3]) Hans eq_refl eq_refl Hc)
    as (_ & _ & (evs & Ht & _ & Hins) & _).
  split; [rewrite Ht; exact Hins | reflexivity].
Defined.

(** ** Request handler *)

Lemma find_last (l : list ChatMessage) m :
  List.find is_user l = Some m ↔
  ∃ l1 l2, l = l1 ++ m :: l2 ∧ is_user m = true ∧ Forall (λ x, is_user x = false) l1.
Proof.
  split.
  - induction l as [|x l IH]; [done|]. simpl.
    destruct (is_user x) eqn:Hx.
    + intros [= <-]. exists [], l. by repeat split.
    + intros Hfind. destruct (IH Hfind) as (l1 & l2 & -> & Hm & Hall).
      exists (x :: l1), l2. repeat split; [done|]. by constructor.
  - intros (l1 & l2 & -> & Hm & Hall).
    induction Hall as [|x l1 Hx _ IH]; simpl; [by rewrite Hm | by rewrite Hx].
Qed.

(** X10.  The last user message is the user message after which no user
    message follows, whatever the assistant and system messages around it;
    there is none exactly when no message is a user message. *)
Theorem lastUserMessage_spec body m :
  (lastUserMessage body = Some m ↔
   ∃ before after,
     default [] (messages body) = before ++ m :: after ∧
     is_user m = true ∧ Forall (λ x, is_user x = false) after) ∧
  (lastUserMessage body = None ↔
   Forall (λ x, is_user x = false) (default [] (messages body))).
Proof.
  unfold lastUserMessage. split.
  - rewrite find_last. split.
    + intros (l1 & l2 & Hrev & Hm & Hall).
      exists (rev l2), (rev l1). split; [|split; [done|]].
      * rewrite <- (rev_involutive (default [] (messages body))), Hrev.
        rewrite rev_app_distr. simpl. by rewrite <- app_assoc.
      * apply Forall_forall. intros x Hx. rewrite Forall_forall in Hall.
        apply Hall. by apply list_elem_of_In, in_rev, list_elem_of_In in Hx.
    + intros (before & after & -> & Hm & Hall).
      exists (rev after), (rev before). split; [|split; [done|]].
      * rewrite rev_app_distr. simpl. by rewrite <- app_assoc.
      * apply Forall_forall. intros x Hx. rewrite Forall_forall in Hall.
        apply Hall. by apply list_elem_of_In, in_rev, list_elem_of_In in Hx.
  - split.
    + intros Hnone. apply Forall_forall. intros x Hx.
      destruct (is_user x) eqn:Hux; [|done].
      apply list_elem_of_In, in_rev in Hx.
      by pose proof (find_none _ _ Hnone x Hx) as Hfalse; rewrite Hux in Hfalse.
    + intros Hall. destruct (List.find is_user (rev (default [] (messages body)))) as [x|] eqn:Hf;
        [|done].
      apply find_some in Hf as [Hin Hux]. apply in_rev, list_elem_of_In in Hin.
      rewrite Forall_forall in Hall. by rewrite (Hall x Hin) in Hux.
Qed.

Lemma lastUserMessage_request_of history m :
  is_user m = true → lastUserMessage (request_of history m) = Some m.
Proof.
  intros Hm. unfold lastUserMessage, request_of. simpl.
  rewrite rev_app_distr. simpl. by rewrite Hm.
Qed.

(** X11.  A form whose name or email is blank is not sent.  Any other form
    is sent as a user message with the form as payload, and the handler,
    whatever the conversation before it, asks the store to insert the row
    with exactly the typed fields; it answers 200 with the thanks if the
    store accepts, and then the row is the last of [user_leads], or 500 if
    not. *)
Theorem submitForm_reaches_store E f history w :
  (trim (c_fullName f) = [] ∨ trim (c_email f) = [] → submitForm f = None) ∧
  (trim (c_fullName f) ≠ [] → trim (c_email f) ≠ [] →
   ∃ m, submitForm f = Some m ∧
        form_payload (request_of history m) ≠ None ∧
        POST E (request_of history m) w =
        (Ok (match lead_insert_error E (user_leads w) (client_row f) with
             | Some _ => mkResponse 500 (JsonError (str "Failed to save lead"))
             | None => mkResponse 200 (JsonText (thanks (c_fullName f)))
             end),
         after_lead E w (client_row f))).
Proof.
  unfold submitForm. split.
  - intros [-> | ->]; [done|]. by destruct (trim (c_fullName f)).
  - intros Hn He.
    destruct (trim (c_fullName f)) as [|c1 n]; [done|].
    destruct (trim (c_email f)) as [|c2 e]; [done|]. simpl.
    eexists. split; [done|].
    assert (Hform : ∀ m fd, is_user m = true → metadata m = Some (mkChatMetadata (Some fd)) →
                      form_payload (request_of history m) = Some fd).
    { intros m fd Hm Hmd. unfold form_payload.
      by rewrite (lastUserMessage_request_of history m Hm), Hmd. }
    rewrite POST_eq. erewrite Hform by done. done.
Qed.

Lemma submitForm_reaches_store_witness :
  trim (c_fullName jane_form) ≠ [] ∧ trim (c_email jane_form) ≠ [] ∧
  ∃ m, submitForm jane_form = Some m ∧
       form_payload (request_of [] m) ≠ None ∧
       POST tiny_site (request_of [] m) initial_world =
       (Ok (match lead_insert_error tiny_site (user_leads initial_world) (client_row jane_form) with
            | Some _ => mkResponse 500 (JsonError (str "Failed to save lead"))
            | None => mkResponse 200 (JsonText (thanks (c_fullName jane_form)))
            end),
        after_lead tiny_site initial_world (client_row jane_form)).
Proof.
  assert (Hn : trim (c_fullName jane_form) ≠ []) by (by vm_compute).
  assert (He : trim (c_email jane_form) ≠ []) by (by vm_compute).
  split; [exact Hn|]. split; [exact He|].
  exact (proj2 (submitForm_reaches_store tiny_site jane_form [] initial_world) Hn He).
Defined.

Lemma searchDocuments_frame E query topK w :
  (searchDocuments E query topK w).1 ≠ Hang ∧
  documents (searchDocuments E query topK w).2 = documents w ∧
  user_leads (searchDocuments E query topK w).2 = user_leads w ∧
  ∃ evs, trace (searchDocuments E query topK w).2 = trace w ++ EvEmbed query :: evs.
Proof.
  rewrite searchDocuments_eq. unfold embedText. change (Z.to_nat 5) with 5%nat.
  destruct (embed_loop_frame E query 5 2000 w) as (Hh & Hd & Hu & _ & _).
  assert (Hfirst : ∃ evs, trace (embed_loop E 5 query 2000 w).2 = trace w ++ EvEmbed query :: evs).
  { rewrite embed_loop_S.
    destruct (embed_api E (embed_calls w) query) as [v|e]; [by exists []|].
    destruct (rate_limited e); [|by exists []].
    destruct (embed_loop_frame E query 4 (2000 * 2) (after_sleep (after_call w query) 2000))
      as (_ & _ & _ & _ & evs & Ht & _).
    exists (EvSleep 2000 :: evs). rewrite Ht. simpl. by rewrite <- !app_assoc. }
  destruct Hfirst as (evs & Ht).
  destruct (embed_loop E 5 query 2000 w) as [[v|e|] w1]; simpl in *; [|by eauto|done].
  destruct (rpc_error (match_documents E (documents w1) v topK)); simpl;
    (do 3 (split; [done|])); exists (evs ++ [EvMatchDocuments v topK]);
    by rewrite Ht, <- app_assoc.
Qed.

(** The handler of a question, in one piece: the search, if there is a text
    to search for, then the conversion of the conversation, then
    [streamText] with the prompt for what was found. *)
Lemma retrieve_and_answer_eq E conversation text w :
  retrieve_and_answer E conversation text w =
  let found := if truthy text then searchDocuments E text 4 w else (Ok [], w) in
  match convert_error E conversation with
  | Some error => (Throw error, found.2)
  | None =>
      (Ok (mkResponse 200 UIMessageStream),
       after_event found.2
         (EvStreamText (prompt_for (match found.1 with Ok t => t | _ => [] end))))
  end.
Proof.
  unfold retrieve_and_answer, bind at 1, prompt_for.
  destruct (truthy text).
  - unfold try_catch. destruct (searchDocuments_frame E text 4 w) as (Hh & _).
    destruct (searchDocuments E text 4 w) as [[t|e|] w1]; [| |done];
      simpl; by destruct (convert_error E conversation).
  - simpl. by destruct (convert_error E conversation).
Qed.

(** X12.  A request without form payload whose conversation
    [convertToModelMessages] accepts is answered with the message stream,
    and [streamText] is the last step of the handler: with no text to search
    for, nothing is embedded or searched and the prompt has no context; a
    search that throws is contained, and the prompt has no context either; a
    search that returns a text gives the prompt with that text, unless it is
    empty.  When [convertToModelMessages] throws, the handler throws that
    error after the search, and [streamText] is not called. *)
Theorem POST_question_answers_after_search E body w :
  form_payload body = None →
  (convert_error E (default [] (messages body)) = None →
     (POST E body w).1 = Ok (mkResponse 200 UIMessageStream) ∧
     (lastUserText body = [] →
        (POST E body w).2 = after_event (after_guard w) (EvStreamText PromptWithoutContext)) ∧
     (lastUserText body ≠ [] → ∀ e w1,
        searchDocuments E (lastUserText body) 4 (after_guard w) = (Throw e, w1) →
        (POST E body w).2 = after_event w1 (EvStreamText PromptWithoutContext)) ∧
     (lastUserText body ≠ [] → ∀ t w1,
        searchDocuments E (lastUserText body) 4 (after_guard w) = (Ok t, w1) →
        (POST E body w).2 = after_event w1 (EvStreamText (prompt_for t)))) ∧
  (∀ error, convert_error E (default [] (messages body)) = Some error →
     (lastUserText body = [] → POST E body w = (Throw error, after_guard w)) ∧
     (lastUserText body ≠ [] →
        POST E body w =
        (Throw error, (searchDocuments E (lastUserText body) 4 (after_guard w)).2))).
Proof.
  intros Hform. rewrite POST_eq, Hform, retrieve_and_answer_eq. fold (after_guard w).
  split.
  - intros ->. destruct (lastUserText body) as [|c text] eqn:Htext; simpl.
    + by repeat split.
    + split; [done|]. split; [done|].
      split; [by intros _ e w1 ->|by intros _ t w1 ->].
  - intros error ->. destruct (lastUserText body) as [|c text] eqn:Htext; simpl; by split.
Qed.

Lemma POST_question_answers_after_search_witness :
  form_payload (ask (str "hello")) = None ∧
  convert_error tiny_site (default [] (messages (ask (str "hello")))) = None ∧
  (POST tiny_site (ask (str "hello")) initial_world).1 = Ok (mkResponse 200 UIMessageStream) ∧
  trace (POST tiny_site (ask (str "hello")) initial_world).2 =
    [EvStartIndexing site; EvEmbed (str "hello"); EvMatchDocuments [1; 2; 3] 4;
     EvStreamText PromptWithoutContext] ∧
  convert_error unconvertible (default [] (messages (ask (str "hello")))) =
    Some (PlainError (str "Cannot read properties of undefined")) ∧
  (POST unconvertible (ask (str "hello")) initial_world).1 =
    Throw (PlainError (str "Cannot read properties of undefined")) ∧
  trace (POST unconvertible (ask (str "hello")) initial_world).2 =
    [EvStartIndexing site; EvEmbed (str "hello"); EvMatchDocuments [1; 2; 3] 4].
Proof.
  assert (Hform : form_payload (ask (str "hello")) = None) by reflexivity.
  assert (Htext : lastUserText (ask (str "hello")) ≠ []) by (by vm_compute).
  split; [exact Hform|]. split; [reflexivity|].
  destruct (POST_question_answers_after_search tiny_site (ask (str "hello")) initial_world
              Hform) as ((Hok & _ & _ & Hfound) & _); [reflexivity|].
  split; [exact Hok|]. split; [rewrite (Hfound Htext [] _ eq_refl); reflexivity|].
  split; [reflexivity|].
  destruct (POST_question_answers_after_search unconvertible (ask (str "hello")) initial_world
              Hform) as (_ & Hthrows).
  destruct (Hthrows _ eq_refl) as (_ & Hthrown).
  rewrite (Hthrown Htext). split; reflexivity.
Defined.

(** X13.  What the client sends for a typed message: nothing when the
    input is blank; otherwise a user message without form, for which the
    handler, whatever the conversation before it, searches with exactly the
    typed text: after the guard its first call is the embedding of that
    text. *)
Theorem sendChatMessage_is_searched E input history w :
  (trim input = [] → sendChatMessage input = None) ∧
  (trim input ≠ [] →
   ∃ m, sendChatMessage input = Some m ∧
        form_payload (request_of history m) = None ∧
        lastUserText (request_of history m) = input ∧
        ∃ evs, trace (POST E (request_of history m) w).2 =
               trace (after_guard w) ++ EvEmbed input :: evs).
Proof.
  unfold sendChatMessage. split; [by intros ->|]. intros Htrim.
  destruct (trim input) as [|c0 t0] eqn:Ht; [done|]. simpl.
  eexists. split; [done|].
  set (m := mkChatMessage User [mkChatPart input] (Some (mkChatMetadata None))).
  assert (Hlast : lastUserMessage (request_of history m) = Some m)
    by (by apply lastUserMessage_request_of).
  assert (Hform : form_payload (request_of history m) = None)
    by (unfold form_payload; by rewrite Hlast).
  assert (Htext : lastUserText (request_of history m) = input)
    by (unfold lastUserText; by rewrite Hlast).
  do 2 (split; [done|]).
  rewrite POST_eq, Hform, Htext, retrieve_and_answer_eq. fold (after_guard w).
  destruct input as [|c input]; [done|]. simpl.
  destruct (searchDocuments_frame E (c :: input) 4 (after_guard w)) as (_ & _ & _ & evs & Hev).
  destruct (convert_error E (history ++ [m])).
  - exists evs. cbn [snd]. by rewrite Hev.
  - exists (evs ++ [EvStreamText
              (prompt_for match (searchDocuments E (c :: input) 4 (after_guard w)).1 with
                          | Ok t => t | _ => [] end)]).
    simpl. by rewrite Hev, <- app_assoc.
Qed.

Lemma sendChatMessage_is_searched_witness :
  trim (str " hello ") ≠ [] ∧
  ∃ m, sendChatMessage (str " hello ") = Some m ∧
       form_payload (request_of [] m) = None ∧
       lastUserText (request_of [] m) = str " hello " ∧
       ∃ evs, trace (POST tiny_site (request_of [] m) initial_world).2 =
              trace (after_guard initial_world) ++ EvEmbed (str " hello ") :: evs.
Proof.
  assert (Ht : trim (str " hello ") ≠ []) by (by vm_compute).
  split; [exact Ht|].
  exact (proj2 (sendChatMessage_is_searched tiny_site (str " hello ") [] initial_world) Ht).
Defined.

Lemma POST_flag_eq E body w :
  indexingStarted (POST E body w).2 = indexingStarted w || asks body.
Proof.
  rewrite POST_eq. unfold asks. destruct (form_payload body) as [formData|].
  - simpl. by rewrite orb_false_r.
  - destruct (calm_retrieve_and_answer E (default [] (messages body)) (lastUserText body)
                (index_once w).2) as (Hf & _).
    rewrite Hf. unfold index_once.
    destruct (indexingStarted w) eqn:Hflag; simpl; [by rewrite Hflag | done].
Qed.

Lemma serve_flag_eq E bodies :
  ∀ w, indexingStarted (serve E bodies w) = indexingStarted w || existsb asks bodies.
Proof.
  induction bodies as [|body bodies IH]; intros w; simpl.
  - by rewrite orb_false_r.
  - change (fold_left _ bodies ?w0) with (serve E bodies w0).
    by rewrite IH, POST_flag_eq, orb_assoc.
Qed.

(** X14.  The flag is true after some requests exactly when the flag was
    true before or one of them carried no form payload: a process that only
    receives form submissions never launches the crawl-and-index run. *)
Theorem indexing_started_iff_question E bodies w :
  (indexingStarted (serve E bodies w) = true ↔
   indexingStarted w = true ∨ ∃ body, body ∈ bodies ∧ form_payload body = None) ∧
  ((∀ body, body ∈ bodies → form_payload body ≠ None) →
   starts (trace (serve E bodies initial_world)) = 0%nat).
Proof.
  split.
  - rewrite serve_flag_eq, orb_true_iff, existsb_exists.
    split; (intros [Hw|(body & Hin & Hb)]; [by left|right]); exists body.
    + apply list_elem_of_In in Hin. split; [done|].
      unfold asks in Hb. by destruct (form_payload body).
    + apply list_elem_of_In in Hin. split; [done|]. unfold asks. by rewrite Hb.
  - intros Hforms.
    destruct (serve_flag E bodies initial_world) as [_ Hcount].
    rewrite Hcount, serve_flag_eq. simpl.
    replace (existsb asks bodies) with false; [done|].
    symmetry. apply not_true_is_false. intros (body & Hin & Hb)%existsb_exists.
    apply list_elem_of_In in Hin. apply (Hforms body Hin).
    unfold asks in Hb. by destruct (form_payload body).
Qed.

Lemma indexing_started_iff_question_witness :
  (∀ body, body ∈ [jane_body; jane_body] → form_payload body ≠ None) ∧
  starts (trace (serve tiny_site [jane_body; jane_body] initial_world)) = 0%nat.
Proof.
  assert (Hforms : ∀ body, body ∈ [jane_body; jane_body] → form_payload body ≠ None).
  { intros body Hin. rewrite !elem_of_cons, elem_of_nil in Hin.
    destruct Hin as [-> | [-> | []]]; discriminate. }
  split; [exact Hforms|].
  exact (proj2 (indexing_started_iff_question tiny_site [jane_body; jane_body] initial_world)
               Hforms).
Defined.

(** X15.  The [retrieveDocument] tool never answers with an empty text:
    when the search returns the empty string the answer is the sentence
    "No relevant documents found.", otherwise what the search returned.  An
    empty query makes it search for the last user text.  What the search
    throws, the tool throws: nothing is caught here. *)
Theorem retrieveDocument_never_empty E lastText query w :
  (∀ t w1, retrieveDocument E lastText query w = (Ok t, w1) → t ≠ []) ∧
  (∀ t w1, searchDocuments E (if truthy query then query else lastText) 4 w = (Ok t, w1) →
     retrieveDocument E lastText query w = (Ok (if truthy t then t else no_documents), w1)) ∧
  (∀ e w1, searchDocuments E (if truthy query then query else lastText) 4 w = (Throw e, w1) →
     retrieveDocument E lastText query w = (Throw e, w1)) ∧
  (query = [] → retrieveDocument E lastText query w = retrieveDocument E lastText lastText w).
Proof.
  unfold retrieveDocument, bind. split; [|split; [|split]].
  - intros t w1.
    destruct (searchDocuments E _ 4 w) as [[docs|e|] w'] eqn:Hs; try done.
    intros [= <- <-]. by destruct docs.
  - by intros t w1 ->.
  - by intros e w1 ->.
  - intros ->. simpl. by destruct (truthy lastText).
Qed.

Lemma retrieveDocument_never_empty_witness :
  searchDocuments tiny_site (if truthy [] then [] else str "prices") 4 initial_world =
    (Ok [], after_event (after_call initial_world (str "prices")) (EvMatchDocuments [1; 2; 3] 4)) ∧
  retrieveDocument tiny_site (str "prices") [] initial_world =
    (Ok no_documents,
     after_event (after_call initial_world (str "prices")) (EvMatchDocuments [1; 2; 3] 4)).
Proof.
  assert (Hs : searchDocuments tiny_site (if truthy [] then [] else str "prices") 4 initial_world =
    (Ok [], after_event (after_call initial_world (str "prices")) (EvMatchDocuments [1; 2; 3] 4)))
    by reflexivity.
  split; [exact Hs|].
  destruct (retrieveDocument_never_empty tiny_site (str "prices") [] initial_world)
    as (_ & Hok & _).
  exact (Hok _ _ Hs).
Defined.


(** ** Client form *)

Lemma format_phone_eq s :
  format_phone s =
  if ten_digits s then formatted_phone s
  else match s with [] => [] | c :: s' => c :: format_phone s' end.
Proof. by destruct s. Qed.

Lemma format_phone_short s : (length s < 10)%nat → format_phone s = s.
Proof.
  induction s as [|c s IH]; intros Hlen; [done|].
  rewrite format_phone_eq. unfold ten_digits.
  destruct (Nat.leb_spec 10 (length (c :: s))) as [|_]; [lia|]. simpl.
  rewrite IH; [done | simpl in Hlen; lia].
Qed.

Lemma filter_all {A} (p : A → bool) l : forallb p l = true → List.filter p l = l.
Proof.
  induction l as [|x l IH]; [done|]. simpl.
  intros [Hx Hl]%andb_prop. by rewrite Hx, IH.
Qed.

Lemma filter_forallb {A} (p : A → bool) l : forallb p (List.filter p l) = true.
Proof.
  induction l as [|x l IH]; [done|]. simpl.
  destruct (p x) eqn:Hx; [|done]. simpl. by rewrite Hx.
Qed.

Lemma format_phone_long d :
  forallb is_digit d = true → (10 ≤ length d)%nat → format_phone d = formatted_phone d.
Proof.
  intros Hd Hlen. rewrite format_phone_eq. unfold ten_digits.
  destruct (Nat.leb_spec 10 (length d)) as [_|]; [|lia].
  by rewrite (forallb_take is_digit 10 d Hd).
Qed.

Lemma numbersOnly_formatted d :
  forallb is_digit d = true → numbersOnly (formatted_phone d) = d.
Proof.
  intros Hd. unfold numbersOnly, formatted_phone.
  rewrite !List.filter_app.
  rewrite (filter_all is_digit (take 3 d)) by (by apply forallb_take).
  rewrite (filter_all is_digit (take 3 (drop 3 d))) by (by apply forallb_take, forallb_drop).
  rewrite (filter_all is_digit (take 4 (drop 6 d))) by (by apply forallb_take, forallb_drop).
  rewrite (filter_all is_digit (drop 10 d)) by (by apply forallb_drop).
  change (List.filter is_digit (str "(")) with (@nil N).
  change (List.filter is_digit (str ") ")) with (@nil N).
  change (List.filter is_digit (str "-")) with (@nil N).
  simpl.
  replace (drop 10 d) with (drop 4 (drop 6 d)) by (by rewrite drop_drop).
  rewrite take_drop.
  replace (drop 6 d) with (drop 3 (drop 3 d)) by (by rewrite drop_drop).
  by rewrite !take_drop.
Qed.

Lemma numbersOnly_format_phone d :
  forallb is_digit d = true → numbersOnly (format_phone d) = d.
Proof.
  intros Hd. destruct (Nat.lt_ge_cases (length d) 10) as [Hlt|Hge].
  - rewrite format_phone_short by done. by apply filter_all.
  - rewrite format_phone_long by done. by apply numbersOnly_formatted.
Qed.

Lemma format_phone_idem value :
  format_phone (numbersOnly (format_phone (numbersOnly value))) = format_phone (numbersOnly value).
Proof.
  rewrite numbersOnly_format_phone; [done|]. apply filter_forallb.
Qed.

(** X17.  The phone field after the user has typed [value] holds the
    digits of [value] and nothing else when there are fewer than ten, and
    otherwise the first ten as (ddd) ddd-dddd followed by the remaining
    digits.  No digit is lost or added, and feeding the field back to the
    handler, as the next keystroke does, leaves it as it is. *)
Theorem phone_is_formatted_digits value st :
  ((length (numbersOnly value) < 10)%nat →
     c_phone (formData (handleFormChange (ValueChange Phone value) st)) = numbersOnly value) ∧
  ((10 ≤ length (numbersOnly value))%nat →
     c_phone (formData (handleFormChange (ValueChange Phone value) st)) =
     formatted_phone (numbersOnly value)) ∧
  numbersOnly (c_phone (formData (handleFormChange (ValueChange Phone value) st)))
    = numbersOnly value ∧
  handleFormChange
    (ValueChange Phone (c_phone (formData (handleFormChange (ValueChange Phone value) st))))
    (handleFormChange (ValueChange Phone value) st)
  = handleFormChange (ValueChange Phone value) st.
Proof.
  simpl. pose proof (filter_forallb is_digit value) as Hd. fold (numbersOnly value) in Hd.
  split; [by apply format_phone_short|]. split; [by apply format_phone_long|].
  split; [by apply numbersOnly_format_phone|].
  by rewrite format_phone_idem.
Qed.

Lemma phone_is_formatted_digits_witness :
  (10 ≤ length (numbersOnly (str "987-654-3210 ext 5")))%nat ∧
  c_phone (formData (handleFormChange (ValueChange Phone (str "987-654-3210 ext 5")) initial_form))
    = str "(987) 654-32105".
Proof.
  assert (Hlen : (10 ≤ length (numbersOnly (str "987-654-3210 ext 5")))%nat)
    by (vm_compute; lia).
  split; [exact Hlen|].
  destruct (phone_is_formatted_digits (str "987-654-3210 ext 5") initial_form) as (_ & Hlong & _).
  rewrite (Hlong Hlen). reflexivity.
Defined.

Lemma handleFormChange_invariant e st :
  form_invariant st → form_invariant (handleFormChange e st).
Proof.
  intros (Hname & Hphone & Herr).
  destruct e as [[] checked | [] value]; unfold form_invariant; simpl;
    repeat split; try done.
  - apply filter_forallb.
  - apply format_phone_idem.
Qed.

(** X18.  Whatever the user types into the form, in whatever order, the
    name field holds only letters and white space, the phone field is
    stable under the phone formatting, and the error shown under the email
    field is the one for the email now in the field. *)
Theorem edit_keeps_form_invariant events :
  form_invariant (edit events initial_form).
Proof.
  assert (Hgen : ∀ st, form_invariant st → form_invariant (edit events st)).
  { induction events as [|e events IH]; intros st Hst; [done|].
    simpl. apply IH. by apply handleFormChange_invariant. }
  apply Hgen. by repeat split.
Qed.

(** ** The email pattern *)

Lemma nullable_matches r : nullable r = true ↔ matches r [].
Proof.
  induction r as [| |p|r1 IH1 r2 IH2|r1 IH1 r2 IH2|r1 IH1]; simpl.
  - done.
  - done.
  - split; [done|]. by intros (c & Hc & _).
  - rewrite andb_true_iff, IH1, IH2. split.
    + intros [H1 H2]. by exists [], [].
    + intros (s1 & s2 & Hs & H1 & H2).
      symmetry in Hs. apply app_eq_nil in Hs as [-> ->]. done.
  - by rewrite orb_true_iff, IH1, IH2.
  - split; [|done]. intros _. by exists [].
Qed.

Lemma deriv_matches r : ∀ c s, matches (deriv c r) s ↔ matches r (c :: s).
Proof.
  induction r as [| |p|r1 IH1 r2 IH2|r1 IH1 r2 IH2|r1 IH1]; intros c s; simpl.
  - done.
  - done.
  - destruct (p c) eqn:Hp; simpl.
    + split; [intros ->; by exists c|]. by intros (c' & [= <- ->] & _).
    + split; [done|]. intros (c' & [= <- ->] & Hc). congruence.
  - assert (Hcat : (∃ s1 s2, s = s1 ++ s2 ∧ matches (deriv c r1) s1 ∧ matches r2 s2) ↔
                   (∃ t1 t2, c :: s = (c :: t1) ++ t2 ∧ matches r1 (c :: t1) ∧ matches r2 t2)).
    { split; intros (s1 & s2 & Hs & H1 & H2); exists s1, s2.
      - subst s. by rewrite <- IH1.
      - injection Hs as ->. by rewrite IH1. }
    destruct (nullable r1) eqn:Hnull; simpl.
    + rewrite Hcat, IH2. split.
      * intros [(t1 & t2 & Hs & H1 & H2) | H2]; [by exists (c :: t1), t2|].
        exists [], (c :: s). split; [done|]. split; [by apply nullable_matches | done].
      * intros ([|c' t1] & t2 & Hs & H1 & H2).
        -- right. simpl in Hs. by subst t2.
        -- left. injection Hs as <- ->. by exists t1, t2.
    + rewrite Hcat. split.
      * intros (t1 & t2 & Hs & H1 & H2). by exists (c :: t1), t2.
      * intros ([|c' t1] & t2 & Hs & H1 & H2).
        -- apply nullable_matches in H1. congruence.
        -- injection Hs as <- ->. by exists t1, t2.
  - by rewrite IH1, IH2.
  - split.
    + intros (s1 & s2 & -> & H1 & ss & -> & Hall).
      exists ((c :: s1) :: ss). split; [done|].
      constructor; [|done]. split; [done|]. by apply IH1.
    + intros (ss & Hs & Hall).
      destruct Hall as [|x ss [Hx Hm] Hall]; [done|].
      destruct x as [|c' x]; [done|]. injection Hs as <- ->.
      exists x, (concat ss). split; [done|]. split; [by apply IH1|]. by exists ss.
Qed.

Lemma regex_test_matches s : ∀ r, regex_test r s = true ↔ matches r s.
Proof.
  unfold regex_test. induction s as [|c s IH]; intros r; simpl.
  - apply nullable_matches.
  - by rewrite IH, deriv_matches.
Qed.

Lemma matches_plus_class p s :
  matches (RPlus (RClass p)) s ↔ s ≠ [] ∧ forallb p s = true.
Proof.
  simpl. split.
  - intros (s1 & s2 & -> & (c & -> & Hc) & ss & -> & Hall).
    split; [done|]. simpl. rewrite Hc. simpl.
    induction Hall as [|x ss [_ (c' & -> & Hc')] _ IH]; [done|].
    simpl. by rewrite Hc'.
  - intros [Hne Hall]. destruct s as [|c s]; [done|].
    simpl in Hall. apply andb_prop in Hall as [Hc Hs].
    exists [c], s. split; [done|]. split; [by exists c|].
    exists (map (λ x, [x]) s). split.
    + clear Hs. induction s as [|x s IH]; [done|]. simpl. by rewrite <- IH.
    + induction s as [|x s IH]; [done|].
      simpl in Hs. apply andb_prop in Hs as [Hx Hs].
      constructor; [|by apply IH]. split; [done|]. by exists x.
Qed.

(** X19.  The email pattern of the form accepts exactly the values made
    of a local part, "@", a domain, "." and an ending, where each of the
    three parts is non-empty and has neither white space nor "@".  The form
    shows no error exactly for the empty value and for these values. *)
Theorem emailRegex_accepts value :
  (regex_test emailRegex value = true ↔
   ∃ local domain ending,
     value = local ++ str "@" ++ domain ++ str "." ++ ending ∧
     (local ≠ [] ∧ forallb not_space_at local = true) ∧
     (domain ≠ [] ∧ forallb not_space_at domain = true) ∧
     (ending ≠ [] ∧ forallb not_space_at ending = true)) ∧
  (emailError value = [] ↔ value = [] ∨ regex_test emailRegex value = true).
Proof.
  split.
  - rewrite regex_test_matches. unfold emailRegex.
    change (matches (RCat ?a ?b) value) with
      (∃ s1 s2, value = s1 ++ s2 ∧ matches a s1 ∧ matches b s2).
    split.
    + intros (local & s2 & -> & Hl & s3 & s4 & -> & (c1 & -> & Hc1) & domain & s5 & -> & Hd
              & s6 & ending & -> & (c2 & -> & Hc2) & He).
      apply N.eqb_eq in Hc1 as <-. apply N.eqb_eq in Hc2 as <-.
      apply matches_plus_class in Hl, Hd, He.
      by exists local, domain, ending.
    + intros (local & domain & ending & -> & Hl & Hd & He).
      apply matches_plus_class in Hl, Hd, He.
      exists local, (str "@" ++ domain ++ str "." ++ ending). split; [done|]. split; [done|].
      exists (str "@"), (domain ++ str "." ++ ending). split; [done|].
      split; [by exists 64%N|].
      exists domain, (str "." ++ ending). split; [done|]. split; [done|].
      exists (str "."), ending. split; [done|]. split; [by exists 46%N | done].
  - unfold emailError. destruct value as [|c value]; simpl.
    + split; [by left | done].
    + destruct (regex_test emailRegex (c :: value)); simpl.
      * split; [by right | done].
      * split; [done|]. by intros [|].
Qed.

(** X20.  A name in which the user typed no letter cannot be submitted:
    the name field then holds white space only, and [submitForm] sends
    nothing, whatever the other fields. *)
Theorem name_without_letters_is_not_sent value st :
  forallb (λ c, negb (is_letter c)) value = true →
  forallb is_ws (c_fullName (formData (handleFormChange (ValueChange FullName value) st)))
    = true ∧
  submitForm (formData (handleFormChange (ValueChange FullName value) st)) = None.
Proof.
  intros Hno. simpl.
  assert (Hws : forallb is_ws (lettersOnly value) = true).
  { unfold lettersOnly. induction value as [|c value IH]; [done|].
    simpl in *. apply andb_prop in Hno as [Hc Hno].
    destruct (is_letter c); [done|]. simpl.
    destruct (is_ws c) eqn:Hw; simpl; [by rewrite Hw, IH | by apply IH]. }
  split; [done|]. unfold submitForm. simpl. by rewrite (trim_ws _ Hws).
Qed.

Lemma name_without_letters_is_not_sent_witness :
  forallb (λ c, negb (is_letter c)) (str "1234 5678") = true ∧
  submitForm (formData (handleFormChange (ValueChange FullName (str "1234 5678"))
                          (mkFormState jane_form []))) = None.
Proof.
  assert (Hno : forallb (λ c, negb (is_letter c)) (str "1234 5678") = true) by reflexivity.
  split; [exact Hno|].
  exact (proj2 (name_without_letters_is_not_sent (str "1234 5678")
                  (mkFormState jane_form []) Hno)).
Defined.
